(** * Short-materials-gacha: the record repository and the review navigator

    A shallow embedding of [src/utils/storage.ts] (the three associated
    collections kept in the browser's local storage and the operations that
    read, merge and rewrite them) and of the navigation helpers of
    [src/pages/ReviewPage.tsx], followed by the properties the specification
    states about them.

    Modelling conventions.
    - The three local-storage keys [albums_data], [review_status] and
      [album_meta] hold JSON texts; the accessors parse them on every read and
      serialise on every write.  The embedding keeps the parsed values: a
      list of albums and two finite maps keyed by album identifier.  A key
      that was never written reads as the empty list or the empty object.
    - A JavaScript object used as a dictionary is its own entries, a
      [gmap string _], read and written as the language does: a key without
      own entry is looked up on [Object.prototype], so that [obj[key]] is a
      function for [toString] or [constructor] and the prototype itself for
      [__proto__], and an assignment under [__proto__] sets the prototype of
      the object instead of adding an entry.  [JSON.stringify] writes the own
      entries only, and [JSON.parse] gives an object with the standard
      prototype.  The stored objects are written by this module alone, so
      they have no own entry named [__proto__].
    - The [Map] built by [importAlbums] is an association list in insertion
      order, because [Array.from(albumMap.values())] depends on that order.
    - JavaScript numbers are integers here ([Z]).
    - [new Date().toISOString()] is a parameter of [importAlbums]. *)

From stdpp Require Import gmap strings list fin_maps.
From Stdlib Require Import ZArith Ascii.

Open Scope Z_scope.

(** ** types/index.ts *)

Record Album := mkAlbum {
  albumId : string;
  albumName : string;
  bookName : string;
  category : string;
  image1 : string;
  image2 : string;
  image3 : string;
  image4 : string
}.

(** The union type ['已抽卡' | '未抽卡']. *)
Inductive ReviewState := Reviewed | Unreviewed.

Record AlbumReviewStatus := mkStatus {
  status_albumId : string;
  status_albumName : string;
  status_bookName : string;
  status_category : string;
  reviewProgress : Z;
  reviewStatus : ReviewState;
  selectedImageIndex : option Z;
  selectedImageLink : option string
}.

Record AlbumMeta := mkMeta {
  meta_albumId : string;
  importedAt : string
}.

Record OperationLog := mkLog {
  log_id : string;
  log_operator : string;
  log_operationTime : string;
  log_operation : string;
  log_result : string
}.

Record ReviewResult := mkResult {
  result_albumId : string;
  result_albumName : string;
  result_bookName : string;
  result_category : string;
  imageLink : string;
  result_reviewStatus : ReviewState
}.

(** The fields of a [Partial<AlbumReviewStatus>] that
    [updateAlbumReviewStatus] reads; it ignores the others. *)
Record PartialStatus := mkPartial {
  p_reviewProgress : option Z;
  p_reviewStatus : option ReviewState;
  p_selectedImageIndex : option Z;
  p_selectedImageLink : option string
}.

#[global] Instance ReviewState_eq_dec : EqDecision ReviewState.
Proof. solve_decision. Defined.

(** ** A JavaScript [Map] with string keys, in insertion order *)

Module JsMap.
Section JsMap.
Context {V : Type}.

(** [m.set(k, v)]: an existing key keeps its place and gets the new value,
    a new key goes to the end. *)
Fixpoint set (k : string) (v : V) (m : list (string * V)) : list (string * V) :=
  match m with
  | [] => [(k, v)]
  | (k', v') :: m' =>
      if decide (k' = k) then (k, v) :: m' else (k', v') :: set k v m'
  end.

Definition keys (m : list (string * V)) : list string := m.*1.
Definition values (m : list (string * V)) : list V := m.*2.
Definition has (k : string) (m : list (string * V)) : bool :=
  bool_decide (k ∈ keys m).

(** Every entry is filed under the key its value carries. *)
Definition keyed (f : V → string) (m : list (string * V)) : Prop :=
  Forall (λ kv, f kv.2 = kv.1) m.
End JsMap.
End JsMap.

(** ** A JavaScript object used as a dictionary *)

Module JsObject.

(** The names every object inherits from [Object.prototype]. *)
Definition inheritedNames : list string :=
  ["__proto__"; "constructor"; "hasOwnProperty"; "isPrototypeOf";
   "propertyIsEnumerable"; "toLocaleString"; "toString"; "valueOf";
   "__defineGetter__"; "__defineSetter__"; "__lookupGetter__";
   "__lookupSetter__"].

(** What [obj[key]] is for an object just parsed: the own entry; or, without
    own entry, what [Object.prototype] has under that name, a function or,
    under [__proto__], the prototype itself, all of them truthy and without
    any field of a row; or undefined. *)
Inductive Value (V : Type) := Undefined | Row (v : V) | Inherited.
Arguments Undefined {V}.
Arguments Row {V} v.
Arguments Inherited {V}.

Definition prop {V : Type} (m : gmap string V) (key : string) : Value V :=
  match m !! key with
  | Some v => Row v
  | None => if bool_decide (key ∈ inheritedNames) then Inherited else Undefined
  end.

(** What [obj[key] = v] leaves of the own entries: under [__proto__], when
    the object has no own entry of that name, the assignment sets the
    prototype and adds nothing. *)
Definition set {V : Type} (key : string) (v : V) (m : gmap string V)
    : gmap string V :=
  if decide (key = "__proto__" ∧ m !! key = None) then m else <[key := v]> m.

(** An object that is read again after assignments: its own entries and the
    object an assignment under [__proto__] made its prototype, if any. *)
Record t (V : Type) := mk { own : gmap string V; proto : option V }.
Arguments mk {V} own proto.
Arguments own {V} _.
Arguments proto {V} _.

(** The object [JSON.parse] returns. *)
Definition parsed {V : Type} (m : gmap string V) : t V := mk m None.

(** [obj[key] = v] *)
Definition assign {V : Type} (key : string) (v : V) (o : t V) : t V :=
  if decide (key = "__proto__" ∧ own o !! key = None) then mk (own o) (Some v)
  else mk (<[key := v]> (own o)) (proto o).

(** The row that [obj[key]] is, when it is one: an own entry, or under
    [__proto__] the row an assignment made the prototype.  Every other value
    is a function, [Object.prototype], a number or a string out of the fields
    of that row, or undefined. *)
Definition rowAt {V : Type} (o : t V) (key : string) : option V :=
  match own o !! key with
  | Some v => Some v
  | None => if decide (key = "__proto__") then proto o else None
  end.

End JsObject.

(** ** utils/storage.ts *)

Module Storage.

(** The parsed contents of the three keys. *)
Record Store := mkStore {
  albums : list Album;
  review_status : gmap string AlbumReviewStatus;
  album_meta : gmap string AlbumMeta
}.

(** Nothing stored yet, and the state after [clearAllData]. *)
Definition emptyStore : Store := mkStore [] ∅ ∅.

Definition getAllAlbums (st : Store) : list Album := albums st.
Definition getAllReviewStatus (st : Store) : gmap string AlbumReviewStatus :=
  review_status st.
Definition getAlbumMetaMap (st : Store) : gmap string AlbumMeta := album_meta st.

Definition saveAlbums (l : list Album) (st : Store) : Store :=
  mkStore l (review_status st) (album_meta st).
Definition saveReviewStatus (m : gmap string AlbumReviewStatus) (st : Store) : Store :=
  mkStore (albums st) m (album_meta st).
Definition saveAlbumMetaMap (m : gmap string AlbumMeta) (st : Store) : Store :=
  mkStore (albums st) (review_status st) m.

(** The identifiers of the Albums collection, in stored order. *)
Definition albumIdsOf (st : Store) : list string := albumId <$> albums st.

(** [albums.find(a => a.albumId === albumId)] *)
Definition findAlbum (id : string) (l : list Album) : option Album :=
  List.find (λ a, bool_decide (albumId a = id)) l.

(** [status && status.reviewStatus === '已抽卡'], on the row that [status] is,
    if it is one: no other value has that [reviewStatus]. *)
Definition isReviewed (o : option AlbumReviewStatus) : bool :=
  match o with
  | Some s => bool_decide (reviewStatus s = Reviewed)
  | None => false
  end.

(** [!status || status.reviewStatus === '未抽卡'] for [status] read from a
    parsed object: an inherited value is truthy and has no [reviewStatus]. *)
Definition isUnreviewed (status : JsObject.Value AlbumReviewStatus) : bool :=
  match status with
  | JsObject.Row s => bool_decide (reviewStatus s = Unreviewed)
  | JsObject.Undefined => true
  | JsObject.Inherited => false
  end.

(** The exceptions the module throws. *)
Inductive Exn := Error (message : string).

(** The message of the only [throw] of the module. *)
Definition albumMissing : string := "专辑不存在".

(** The marker [batchUpdateReviewStatus] stores as the selected link. *)
Definition rejectedLink : string := "抽卡不通过".

(** [a ?? b] *)
Definition nullish {A : Type} (a b : option A) : option A :=
  match a with Some x => Some x | None => b end.

(** How a call ends: it returns, or it throws. *)
Inductive Outcome := Returned | Thrown (e : Exn).

(** [updateAlbumReviewStatus(albumId, status)]: the store after the call and
    how the call ended.  [existingStatus?.f] is undefined unless
    [existingStatus] is an own row. *)
Definition updateAlbumReviewStatus (id : string) (status : PartialStatus)
    (st : Store) : Store * Outcome :=
  let allStatus := getAllReviewStatus st in
  match findAlbum id (getAllAlbums st) with
  | None => (st, Thrown (Error albumMissing))
  | Some album =>
      let existingStatus := allStatus !! id in
      let row :=
        {| status_albumId := id;
           status_albumName := albumName album;
           status_bookName := bookName album;
           status_category := category album;
           reviewProgress :=
             default 0 (nullish (p_reviewProgress status)
                                (reviewProgress <$> existingStatus));
           reviewStatus :=
             default Unreviewed (nullish (p_reviewStatus status)
                                         (reviewStatus <$> existingStatus));
           selectedImageIndex :=
             nullish (p_selectedImageIndex status)
                     (existingStatus ≫= selectedImageIndex);
           selectedImageLink :=
             nullish (p_selectedImageLink status)
                     (existingStatus ≫= selectedImageLink) |} in
      (saveReviewStatus
         (JsObject.own (JsObject.assign id row (JsObject.parsed allStatus))) st,
       Returned)
  end.

(** The body of the [forEach] of [batchUpdateReviewStatus]; [allStatus] is
    read again after the assignments of the turns before. *)
Definition rejectOne (st : Store) (allStatus : JsObject.t AlbumReviewStatus)
    (id : string) : JsObject.t AlbumReviewStatus :=
  if isReviewed (JsObject.rowAt allStatus id) then allStatus
  else
    match findAlbum id (getAllAlbums st) with
    | None => allStatus
    | Some album =>
        JsObject.assign id
          {| status_albumId := id;
             status_albumName := albumName album;
             status_bookName := bookName album;
             status_category := category album;
             reviewProgress := 0;
             reviewStatus := Reviewed;
             selectedImageIndex := None;
             selectedImageLink := Some rejectedLink |} allStatus
    end.

Definition batchUpdateReviewStatus (albumIds : list string) (st : Store) : Store :=
  saveReviewStatus
    (JsObject.own
       (foldl (rejectOne st) (JsObject.parsed (getAllReviewStatus st)) albumIds))
    st.

Record ImportResult := mkImportResult { imported : Z; duplicates : Z }.

(** First [forEach] of [importAlbums]: keep the albums already reviewed.
    [existingMeta[id]] without own entry is undefined or an inherited value:
    a function, which is left out when the object is serialised, or under
    [__proto__] the prototype the object already has.  So only an own entry
    is carried over; it is never one named [__proto__], which no stored
    object has. *)
Definition keepReviewed (existingStatus : gmap string AlbumReviewStatus)
    (existingMeta : gmap string AlbumMeta)
    (acc : list (string * Album) * gmap string AlbumMeta) (album : Album)
    : list (string * Album) * gmap string AlbumMeta :=
  let '(albumMap, metaToKeep) := acc in
  if isReviewed (existingStatus !! albumId album) then
    (JsMap.set (albumId album) album albumMap,
     match existingMeta !! albumId album with
     | Some m => <[albumId album := m]> metaToKeep
     | None => metaToKeep
     end)
  else acc.

(** Second [forEach] of [importAlbums]: apply one incoming row.
    [metaToKeep] is read through [Object.entries] only, which lists the own
    entries. *)
Definition addIncoming (nowIso : string)
    (acc : list (string * Album) * gmap string AlbumMeta * Z) (album : Album)
    : list (string * Album) * gmap string AlbumMeta * Z :=
  let '(albumMap, metaToKeep, dups) := acc in
  (JsMap.set (albumId album) album albumMap,
   JsObject.set (albumId album) (mkMeta (albumId album) nowIso) metaToKeep,
   if JsMap.has (albumId album) albumMap then dups + 1 else dups).

Definition importAlbums (nowIso : string) (newAlbums : list Album) (st : Store)
    : Store * ImportResult :=
  let existingAlbums := getAllAlbums st in
  let existingStatus := getAllReviewStatus st in
  let existingMeta := getAlbumMetaMap st in
  let kept := foldl (keepReviewed existingStatus existingMeta) ([], ∅) existingAlbums in
  let '(albumMap, metaToKeep, dups) :=
    foldl (addIncoming nowIso) (kept, 0) newAlbums in
  let albumIds : gset string := list_to_set (JsMap.keys albumMap) in
  let statusToKeep := filter (λ kv, kv.1 ∈ albumIds) existingStatus in
  let metaCleaned := filter (λ kv, kv.1 ∈ albumIds) metaToKeep in
  (saveAlbumMetaMap metaCleaned
     (saveReviewStatus statusToKeep
        (saveAlbums (JsMap.values albumMap) st)),
   {| imported := Z.of_nat (length newAlbums); duplicates := dups |}).

Record DeleteResult := mkDeleteResult { deleted : Z }.

Definition deleteAlbums (albumIdsToDelete : list string) (st : Store)
    : Store * DeleteResult :=
  let deleteSet : gset string := list_to_set albumIdsToDelete in
  if decide (size deleteSet = 0%nat) then (st, {| deleted := 0 |})
  else
    let remainingAlbums := filter (λ a, albumId a ∉ deleteSet) (getAllAlbums st) in
    let remainingStatus := filter (λ kv, kv.1 ∉ deleteSet) (getAllReviewStatus st) in
    let remainingMeta := filter (λ kv, kv.1 ∉ deleteSet) (getAlbumMetaMap st) in
    (saveAlbumMetaMap remainingMeta
       (saveReviewStatus remainingStatus
          (saveAlbums remainingAlbums st)),
     {| deleted := Z.of_nat (size deleteSet) |}).

(** [getAlbumReviewStatus(albumId)]: [allStatus[albumId] || null], with
    [Undefined] for null. *)
Definition getAlbumReviewStatus (id : string) (st : Store)
    : JsObject.Value AlbumReviewStatus :=
  JsObject.prop (getAllReviewStatus st) id.

(** The key [operation_logs] holds the log, newest entry first.
    [addOperationLog]: [nowMs] is [Date.now().toString()] and [nowLocal] is
    [new Date().toLocaleString('zh-CN')]. *)
Definition addOperationLog (nowMs nowLocal : string) (operation result : string)
    (logs : list OperationLog) : list OperationLog :=
  let newLog :=
    {| log_id := nowMs;
       log_operator := "系统用户";
       log_operationTime := nowLocal;
       log_operation := operation;
       log_result := result |} in
  let logs := newLog :: logs in
  if decide (1000 < length logs)%nat then take 1000 logs else logs.

End Storage.

(** ** Sequences of repository operations *)

Module Repository.
Import Storage.

Inductive Op :=
| ImportBatch (nowIso : string) (newAlbums : list Album)
| UpdateStatus (id : string) (status : PartialStatus)
| BatchReject (albumIds : list string)
| DeleteRecords (albumIds : list string).

Definition step (st : Store) (op : Op) : Store :=
  match op with
  | ImportBatch nowIso newAlbums => (importAlbums nowIso newAlbums st).1
  | UpdateStatus id status => (updateAlbumReviewStatus id status st).1
  | BatchReject albumIds => batchUpdateReviewStatus albumIds st
  | DeleteRecords albumIds => (deleteAlbums albumIds st).1
  end.

(** The store reached from nothing by a sequence of operations. *)
Definition run (ops : list Op) : Store := foldl step emptyStore ops.

(** Every key of the two subordinate maps is the identifier of an album. *)
Definition consistent (st : Store) : Prop :=
  (∀ id, is_Some (review_status st !! id) → id ∈ albumIdsOf st) ∧
  (∀ id, is_Some (album_meta st !! id) → id ∈ albumIdsOf st).

End Repository.

(** ** pages/ReviewPage.tsx: navigation and progress *)

Module ReviewPage.
Import Storage.

(** [arr.findIndex(p)], [-1] when no element satisfies [p]. *)
Definition findIndex {A : Type} (P : A → Prop) `{!∀ x, Decision (P x)}
    (l : list A) : Z :=
  match list_find P l with
  | Some (i, _) => Z.of_nat i
  | None => -1
  end.

(** The list the page filters out of the albums, in stored order:
    [albums.filter(a => !allStatus[a.albumId] || ... === '未抽卡')]. *)
Definition unreviewed (st : Store) : list Album :=
  filter (λ a, isUnreviewed (JsObject.prop (getAllReviewStatus st) (albumId a)))
         (getAllAlbums st).

Definition totalAlbumCount (st : Store) : Z :=
  Z.of_nat (length (getAllAlbums st)).

Definition unreviewedCount (st : Store) : Z :=
  Z.of_nat (length (unreviewed st)).

(** [routeId] is the route parameter [albumId], a string or undefined. *)
Definition currentIndex (routeId : option string) (st : Store) : Z :=
  findIndex (λ a, Some (albumId a) = routeId) (unreviewed st) + 1.

(** [!albumId] is false exactly for a non-empty string. *)
Definition truthy (routeId : option string) : bool :=
  match routeId with
  | Some s => negb (bool_decide (s = ""))
  | None => false
  end.

(** The text [`${shown}/${total}`]. *)
Record ProgressText := mkProgress { shown : Z; total : Z }.

(** The memo [overallProgressText] as a function of its dependencies. *)
Definition overallProgressText (routeId : option string)
    (totalAlbumCount unreviewedCount currentIndex : Z) : ProgressText :=
  if negb (truthy routeId) then mkProgress 0 totalAlbumCount
  else if totalAlbumCount <=? 0 then mkProgress 0 0
  else
    let reviewedCount := Z.max 0 (totalAlbumCount - unreviewedCount) in
    let currentOverallIndex :=
      if 0 <? currentIndex then reviewedCount + currentIndex else reviewedCount in
    let safeCurrent := Z.min (Z.max currentOverallIndex 0) totalAlbumCount in
    mkProgress safeCurrent totalAlbumCount.

(** What the page shows for a store and a route parameter. *)
Definition progressOf (routeId : option string) (st : Store) : ProgressText :=
  overallProgressText routeId (totalAlbumCount st) (unreviewedCount st)
                      (currentIndex routeId st).

Definition getNextUnreviewedAlbumId (current : string) (st : Store)
    : option string :=
  let unreviewed := unreviewed st in
  if decide (length unreviewed = 0%nat) then None
  else
    let idx := findIndex (λ a, albumId a = current) unreviewed in
    if decide (idx = -1) then albumId <$> unreviewed !! 0%nat
    else if decide (idx >= Z.of_nat (length unreviewed) - 1) then None
    else albumId <$> unreviewed !! Z.to_nat (idx + 1).

(** [getPreviousAlbumId(current)], over all albums. *)
Definition getPreviousAlbumId (current : string) (st : Store) : option string :=
  let albums := getAllAlbums st in
  let idx := findIndex (λ a, albumId a = current) albums in
  if decide (idx <= 0) then None
  else albumId <$> albums !! Z.to_nat (idx - 1).

(** [getNextAlbumId(current)], over all albums. *)
Definition getNextAlbumId (current : string) (st : Store) : option string :=
  let albums := getAllAlbums st in
  let idx := findIndex (λ a, albumId a = current) albums in
  if decide (idx = -1 ∨ idx >= Z.of_nat (length albums) - 1) then None
  else albumId <$> albums !! Z.to_nat (idx + 1).

(** The status [executeReject] writes for the current album. *)
Definition rejectPartial : PartialStatus :=
  {| p_reviewProgress := Some 0;
     p_reviewStatus := Some Reviewed;
     p_selectedImageIndex := None;
     p_selectedImageLink := Some "抽卡不通过" |}.

(** [imageLinks[selectedImageIndex - 1]] *)
Definition imageLinkAt (album : Album) (selectedImageIndex : Z) : option string :=
  if decide (selectedImageIndex - 1 < 0) then None
  else [image1 album; image2 album; image3 album; image4 album]
         !! Z.to_nat (selectedImageIndex - 1).

(** The status [executeConfirm] writes for the current album. *)
Definition confirmPartial (album : Album) (selectedImageIndex : Z) : PartialStatus :=
  {| p_reviewProgress := Some 1;
     p_reviewStatus := Some Reviewed;
     p_selectedImageIndex := Some selectedImageIndex;
     p_selectedImageLink := imageLinkAt album selectedImageIndex |}.

(** [clamp(lo, hi, x)] as the specification uses it. *)
Definition clamp (lo hi x : Z) : Z :=
  if x <? lo then lo else if hi <? x then hi else x.

End ReviewPage.

(** ** utils/csvParser.ts: one line of CSV *)

Module Csv.
Import Storage.

(** Strings are sequences of bytes here and of UTF-16 units in the source;
    the three characters the functions look for are single bytes that occur
    in no multi-byte sequence, so the fields come out the same. *)
Definition dquote : ascii := "034"%char.
Definition comma : ascii := ","%char.
Definition newline : ascii := "010"%char.

(** [field.includes(c)] for a one-character [c]. *)
Fixpoint includes (c : ascii) (field : string) : bool :=
  match field with
  | EmptyString => false
  | String c' rest => if decide (c' = c) then true else includes c rest
  end.

(** [field.replace] of every double quote by two of them. *)
Fixpoint doubleQuotes (field : string) : string :=
  match field with
  | EmptyString => EmptyString
  | String c rest =>
      if decide (c = dquote) then String dquote (String dquote (doubleQuotes rest))
      else String c (doubleQuotes rest)
  end.

Definition escapeCSVField (field : string) : string :=
  if includes comma field || includes dquote field || includes newline field
  then String dquote (doubleQuotes field +:+ String dquote EmptyString)
  else field.

(** The loop of [parseCSVLine] from position [i] on: [line] is what is left
    of the line from [i]. *)
Fixpoint parseLoop (line : string) (current : string) (inQuotes : bool)
    (values : list string) : list string :=
  match line with
  | EmptyString => values ++ [current]
  | String char rest =>
      if decide (char = dquote) then
        match inQuotes, rest with
        | true, String next rest' =>
            if decide (next = dquote)
            then parseLoop rest' (current +:+ String dquote EmptyString) inQuotes values
            else parseLoop rest current (negb inQuotes) values
        | _, _ => parseLoop rest current (negb inQuotes) values
        end
      else if bool_decide (char = comma) && negb inQuotes then
        parseLoop rest EmptyString inQuotes (values ++ [current])
      else parseLoop rest (current +:+ String char EmptyString) inQuotes values
  end.

Definition parseCSVLine (line : string) : list string :=
  parseLoop line EmptyString false [].

(** [row[header] || ''] on a record written as its entries in key order. *)
Definition field (row : list (string * string)) (header : string) : string :=
  match List.find (λ kv, bool_decide (kv.1 = header)) row with
  | Some kv => kv.2
  | None => EmptyString
  end.

(** The line [exportCSV] writes for a list of fields. *)
Definition csvLine (fields : list string) : string :=
  String.concat (String comma EmptyString) (escapeCSVField <$> fields).

(** What [exportCSV] hands to the browser. *)
Record Download := mkDownload { filename : string; content : string }.

(** The byte order mark, U+FEFF. *)
Definition bom : string :=
  String (ascii_of_nat 239) (String (ascii_of_nat 187)
    (String (ascii_of_nat 191) EmptyString)).

Definition exportCSV (data : list (list (string * string))) (name : string)
    : Exn + Download :=
  match data with
  | [] => inl (Error "没有数据可导出")
  | first :: _ =>
      let headers := first.*1 in
      let csvRows :=
        csvLine headers :: ((λ row, csvLine (field row <$> headers)) <$> data) in
      let csvContent := String.concat (String newline EmptyString) csvRows in
      inr {| filename := name; content := bom +:+ csvContent |}
  end.

End Csv.

(** ** utils/export.ts *)

Module ReviewExport.
Import Storage Csv.

(** The two labels of a review state. *)
Definition label (s : ReviewState) : string :=
  match s with Reviewed => "已抽卡" | Unreviewed => "未抽卡" end.

(** [status.selectedImageLink || '未抽卡'] *)
Definition linkOr (link : option string) : string :=
  match link with
  | Some l => if decide (l = EmptyString) then "未抽卡" else l
  | None => "未抽卡"
  end.

(** [status.selectedImageLink] for a truthy [status]. *)
Definition linkOf (status : JsObject.Value AlbumReviewStatus) : option string :=
  match status with
  | JsObject.Row s => selectedImageLink s
  | _ => None
  end.

(** The body of the [map] of [exportReviewResults]. *)
Definition reviewResult (st : Store) (id : string) : ReviewResult :=
  match findAlbum id (getAllAlbums st) with
  | None => mkResult id EmptyString EmptyString EmptyString "未抽卡" Unreviewed
  | Some album =>
      let status := JsObject.prop (getAllReviewStatus st) id in
      if isUnreviewed status then
        mkResult (albumId album) (albumName album) (bookName album)
                 (category album) "未抽卡" Unreviewed
      else
        mkResult (albumId album) (albumName album) (bookName album)
                 (category album) (linkOr (linkOf status)) Reviewed
  end.

(** [filteredAlbumIds || albums.map(a => a.albumId)]: an array, also the
    empty one, is truthy. *)
Definition albumIdsToExport (filteredAlbumIds : option (list string)) (st : Store)
    : list string :=
  match filteredAlbumIds with
  | Some ids => ids
  | None => albumId <$> getAllAlbums st
  end.

Definition reviewResults (filteredAlbumIds : option (list string)) (st : Store)
    : list ReviewResult :=
  reviewResult st <$> albumIdsToExport filteredAlbumIds st.

(** The record [exportReviewResults] builds for one result. *)
Definition csvRecord (r : ReviewResult) : list (string * string) :=
  [("专辑id", result_albumId r);
   ("专辑名称", result_albumName r);
   ("书名", result_bookName r);
   ("赛道品类", result_category r);
   ("图片链接", imageLink r);
   ("抽卡状态", label (result_reviewStatus r))].

(** [exportReviewResults(filteredAlbumIds)]; [timestamp] is the fourteen
    digits the function makes of the current date. *)
Definition exportReviewResults (timestamp : string)
    (filteredAlbumIds : option (list string)) (st : Store) : Exn + Download :=
  let csvData := csvRecord <$> reviewResults filteredAlbumIds st in
  exportCSV csvData ("专辑图片抽卡结果_" +:+ timestamp +:+ ".csv").

End ReviewExport.

(** ** pages/OverviewPage.tsx: counters and pages *)

Module OverviewPage.
Import Storage.

(** The counters of the memo [stats]; its fourth field, the completion rate,
    is a floating-point quotient of the two counters and is left out. *)
Record Stats := mkStats { stat_total : Z; stat_reviewed : Z; stat_unreviewed : Z }.

(** The body of the [forEach] of [stats]. *)
Definition countOne (reviewStatus : gmap string AlbumReviewStatus)
    (acc : Z * Z) (album : Album) : Z * Z :=
  let '(reviewed, unreviewed) := acc in
  if isReviewed (reviewStatus !! albumId album) then (reviewed + 1, unreviewed)
  else (reviewed, unreviewed + 1).

Definition stats (albums : list Album)
    (reviewStatus : gmap string AlbumReviewStatus) : Stats :=
  let '(reviewed, unreviewed) := foldl (countOne reviewStatus) (0, 0) albums in
  {| stat_total := Z.of_nat (length albums);
     stat_reviewed := reviewed;
     stat_unreviewed := unreviewed |}.

(** [arr.slice(start, end)] for integer arguments. *)
Definition slice {A : Type} (start end_ : Z) (l : list A) : list A :=
  let len := Z.of_nat (length l) in
  let k := if start <? 0 then Z.max (len + start) 0 else Z.min start len in
  let final := if end_ <? 0 then Z.max (len + end_) 0 else Z.min end_ len in
  take (Z.to_nat (final - k)) (drop (Z.to_nat k) l).

Definition paginatedAlbums {A : Type} (filteredAlbums : list A)
    (currentPage pageSize : Z) : list A :=
  let start := (currentPage - 1) * pageSize in
  slice start (start + pageSize) filteredAlbums.

(** [idsToReview] of [handleBatchReview] and [confirmBatchReview]: the
    selected identifiers, in the order of the set, that pass the test
    [!status || status.reviewStatus === '未抽卡'] on the page's copy of the
    status map. *)
Definition idsToReview (selectedIds : list string)
    (reviewStatus : gmap string AlbumReviewStatus) : list string :=
  filter (λ id, isUnreviewed (JsObject.prop reviewStatus id)) selectedIds.

End OverviewPage.

(** ** Notions the specification speaks of *)

Module Spec.
Import Storage.

(** An identifier whose current status is ['已抽卡']. *)
Definition reviewedId (st : Store) (id : string) : Prop :=
  isReviewed (review_status st !! id).

(** A status row that is missing or says ['未抽卡']. *)
Definition absentOrUnreviewed (o : option AlbumReviewStatus) : bool :=
  match o with
  | Some s => bool_decide (reviewStatus s = Unreviewed)
  | None => true
  end.

(** An identifier whose status row is missing or says ['未抽卡']. *)
Definition unreviewedId (st : Store) (id : string) : Prop :=
  absentOrUnreviewed (review_status st !! id).

(** The unreviewed subsequence as the specification defines it: the albums,
    in stored order, whose status row is missing or says ['未抽卡']. *)
Definition unreviewedSeq (st : Store) : list Album :=
  filter (λ a, unreviewedId st (albumId a)) (albums st).

(** An identifier without status row that is the name of something every
    object inherits. *)
Definition shadowedId (st : Store) (id : string) : Prop :=
  review_status st !! id = None ∧ id ∈ JsObject.inheritedNames.

#[global] Instance shadowedId_dec st id : Decision (shadowedId st id).
Proof. unfold shadowedId. apply _. Defined.

(** The stored albums without status row whose identifier is an inherited
    name, in stored order. *)
Definition shadowedAlbums (st : Store) : list Album :=
  filter (λ a, shadowedId st (albumId a)) (albums st).

(** The position, from 1, of the first album of [l] that carries [id], and
    [0] when no album of [l] does. *)
Fixpoint position (id : string) (l : list Album) : Z :=
  match l with
  | [] => 0
  | a :: l' =>
      if decide (albumId a = id) then 1
      else let p := position id l' in if decide (p = 0) then 0 else p + 1
  end.

(** The count the specification displays for the current album [id]:
    [clamp(0, T, (T − U) + P)]. *)
Definition displayedCount (st : Store) (id : string) : Z :=
  let T := Z.of_nat (length (albums st)) in
  let U := Z.of_nat (length (unreviewedSeq st)) in
  let P := position id (unreviewedSeq st) in
  ReviewPage.clamp 0 T (T - U + P).

(** An identifier [importAlbums] retains whatever the batch: that of a
    stored album that is reviewed. *)
Definition keptId (st : Store) (id : string) : Prop :=
  id ∈ albumIdsOf st ∧ reviewedId st id.

(** The stored albums that are reviewed, in stored order. *)
Definition reviewedAlbums (st : Store) : list Album :=
  filter (λ a, reviewedId st (albumId a)) (albums st).

(** The row that records the rejection of album [a] under identifier [id]. *)
Definition rejectedRow (id : string) (a : Album) : AlbumReviewStatus :=
  {| status_albumId := id;
     status_albumName := albumName a;
     status_bookName := bookName a;
     status_category := category a;
     reviewProgress := 0;
     reviewStatus := Reviewed;
     selectedImageIndex := None;
     selectedImageLink := Some "抽卡不通过" |}.

(** Incoming rows whose identifier is already among the rows retained so
    far: the reviewed ones at first, then also every row applied before. *)
Fixpoint collisions (seen : gset string) (l : list Album) : Z :=
  match l with
  | [] => 0
  | a :: l' =>
      (if decide (albumId a ∈ seen) then 1 else 0)
      + collisions ({[albumId a]} ∪ seen) l'
  end.

End Spec.

(** ** Sample data *)

Module Examples.
Import Storage.

Definition albumA : Album := mkAlbum "A" "Album A" "Book" "fantasy" "a1.png" "a2.png" "" "".
Definition albumB : Album := mkAlbum "B" "Album B" "Book" "fantasy" "b1.png" "" "" "".
Definition albumC : Album := mkAlbum "C" "Album C" "Tome" "history" "c1.png" "" "" "".

(** A later row for the identifier of [albumA], with another name and
    another category. *)
Definition albumA2 : Album := mkAlbum "A" "Renamed" "Book" "romance" "x.png" "" "" "".

Definition t0 : string := "2024-01-01T00:00:00.000Z".
Definition t1 : string := "2024-02-02T00:00:00.000Z".

(** The row a review that picks the first image leaves. *)
Definition accepted (a : Album) : AlbumReviewStatus :=
  mkStatus (albumId a) (albumName a) (bookName a) (category a)
           1 Reviewed (Some 1) (Some (image1 a)).

(** One album, imported at [t0] and not reviewed. *)
Definition onlyA : Store := mkStore [albumA] ∅ {["A" := mkMeta "A" t0]}.

(** One album, imported at [t0] and reviewed. *)
Definition onlyAReviewed : Store :=
  mkStore [albumA] {["A" := accepted albumA]} {["A" := mkMeta "A" t0]}.

(** Three albums, none reviewed. *)
Definition catalogABC : Store :=
  mkStore [albumA; albumB; albumC] ∅
          {["A" := mkMeta "A" t0; "B" := mkMeta "B" t0; "C" := mkMeta "C" t0]}.

(** An album whose identifier is [toString], between A and B; no album is
    reviewed.  The state after importing the three rows at [t0]. *)
Definition albumToString : Album :=
  mkAlbum "toString" "Album T" "Book" "fantasy" "t1.png" "" "" "".

Definition shadowCatalog : Store :=
  mkStore [albumA; albumToString; albumB] ∅
          {["A" := mkMeta "A" t0; "toString" := mkMeta "toString" t0;
            "B" := mkMeta "B" t0]}.

(** One album whose identifier is [__proto__].  The state after importing
    its row: no metadata is stored for it. *)
Definition albumProto : Album :=
  mkAlbum "__proto__" "Album P" "Book" "fantasy" "p1.png" "" "" "".

Definition protoCatalog : Store := mkStore [albumProto] ∅ ∅.

(** Three albums, the second one reviewed. *)
Definition catalogABCReviewedB : Store :=
  mkStore [albumA; albumB; albumC] {["B" := accepted albumB]}
          {["A" := mkMeta "A" t0; "B" := mkMeta "B" t0; "C" := mkMeta "C" t0]}.

End Examples.

(** * Properties *)

(** ** Lists *)

Lemma filter_all {A : Type} (P : A → Prop) `{!∀ x, Decision (P x)} (l : list A) :
  (∀ x, x ∈ l → P x) → filter P l = l.
Proof.
  induction l as [|x l IH]; intros Hall; [done|].
  rewrite filter_cons_True by (apply Hall; left).
  f_equal. apply IH. intros y Hy. apply Hall. by right.
Qed.

Lemma filter_ext_in {A : Type} (P Q : A → Prop)
    `{!∀ x, Decision (P x)} `{!∀ x, Decision (Q x)} (l : list A) :
  (∀ x, x ∈ l → P x ↔ Q x) → filter P l = filter Q l.
Proof.
  induction l as [|x l IH]; intros Hext; [done|].
  rewrite !filter_cons.
  destruct (decide (P x)) as [HP|HP], (decide (Q x)) as [HQ|HQ].
  - f_equal. apply IH. intros y Hy. apply Hext. by right.
  - destruct HQ. apply Hext; [left|done].
  - destruct HP. apply Hext; [left|done].
  - apply IH. intros y Hy. apply Hext. by right.
Qed.

(** ** The insertion-ordered map *)

Section JsMapFacts.
Context {V : Type}.
Implicit Types (m : list (string * V)) (k : string) (v : V).

Lemma keys_set k v m k' :
  k' ∈ JsMap.keys (JsMap.set k v m) ↔ k' = k ∨ k' ∈ JsMap.keys m.
Proof.
  unfold JsMap.keys. induction m as [|[k0 v0] m IH]; simpl.
  - rewrite elem_of_cons, elem_of_nil. tauto.
  - destruct (decide (k0 = k)) as [->|Hne]; simpl.
    + rewrite elem_of_cons. tauto.
    + rewrite !elem_of_cons, IH. tauto.
Qed.

Lemma set_fresh k v m :
  k ∉ JsMap.keys m → JsMap.set k v m = m ++ [(k, v)].
Proof.
  unfold JsMap.keys. induction m as [|[k0 v0] m IH]; simpl; [done|].
  intros Hk. apply not_elem_of_cons in Hk as [Hne Hk].
  destruct (decide (k0 = k)); [congruence|]. by rewrite IH.
Qed.

Lemma keyed_set f k v m :
  JsMap.keyed f m → f v = k → JsMap.keyed f (JsMap.set k v m).
Proof.
  unfold JsMap.keyed. intros Hm Hv. induction Hm as [|[k0 v0] m H0 Hm IH]; simpl.
  - by constructor.
  - destruct (decide (k0 = k)); constructor; auto.
Qed.

Lemma keyed_values f m :
  JsMap.keyed f m → f <$> JsMap.values m = JsMap.keys m.
Proof.
  unfold JsMap.keyed, JsMap.values, JsMap.keys.
  induction 1 as [|[k0 v0] m H0 Hm IH]; simpl in *; [done|]. by f_equal.
Qed.
End JsMapFacts.

(** ** Objects as dictionaries *)

Section JsObjectFacts.
Context {V : Type}.
Implicit Types (m : gmap string V) (o : JsObject.t V) (k key : string) (v : V).

Lemma set_insert key v m :
  key ≠ "__proto__" ∨ is_Some (m !! key) → JsObject.set key v m = <[key := v]> m.
Proof.
  intros Hk. unfold JsObject.set. rewrite decide_False; [done|].
  intros [-> Hnone]. destruct Hk as [?|[x Hx]]; [done|congruence].
Qed.

Lemma set_proto v m :
  m !! "__proto__" = None → JsObject.set "__proto__" v m = m.
Proof. intros Hnone. unfold JsObject.set. by rewrite decide_True. Qed.

Lemma lookup_set_ne key v m k : k ≠ key → JsObject.set key v m !! k = m !! k.
Proof.
  intros Hne. unfold JsObject.set. case_decide; [done|]. by rewrite lookup_insert_ne.
Qed.


Lemma own_assign key v o :
  JsObject.own (JsObject.assign key v o) = JsObject.set key v (JsObject.own o).
Proof. unfold JsObject.assign, JsObject.set. by case_decide. Qed.

Lemma rowAt_parsed m k : JsObject.rowAt (JsObject.parsed m) k = m !! k.
Proof.
  unfold JsObject.rowAt, JsObject.parsed. simpl.
  destruct (m !! k); [done|]. by case_decide.
Qed.

Lemma rowAt_own o k v : JsObject.own o !! k = Some v → JsObject.rowAt o k = Some v.
Proof. intros Hv. unfold JsObject.rowAt. by rewrite Hv. Qed.

Lemma rowAt_other o k :
  JsObject.own o !! k = None → k ≠ "__proto__" → JsObject.rowAt o k = None.
Proof. intros Hv Hk. unfold JsObject.rowAt. rewrite Hv. by case_decide. Qed.
End JsObjectFacts.

(** ** Reading a status through the prototype chain *)

Section StatusReads.
Import Storage Spec.
Implicit Types (S : gmap string AlbumReviewStatus) (k : string).

Lemma prop_row S k s : S !! k = Some s → JsObject.prop S k = JsObject.Row s.
Proof. intros Hs. unfold JsObject.prop. by rewrite Hs. Qed.

Lemma reviewed_not_unreviewed (s : AlbumReviewStatus) :
  bool_decide (reviewStatus s = Unreviewed) = negb (bool_decide (reviewStatus s = Reviewed)).
Proof. by destruct (reviewStatus s). Qed.

(** The test [!status || status.reviewStatus === '未抽卡'] fails for a
    reviewed row and for an inherited name without row. *)
Lemma isUnreviewed_prop S k :
  isUnreviewed (JsObject.prop S k)
  = negb (isReviewed (S !! k))
    && negb (bool_decide (S !! k = None ∧ k ∈ JsObject.inheritedNames)).
Proof.
  unfold JsObject.prop. destruct (S !! k) as [s|] eqn:Hs; cbn [isUnreviewed isReviewed].
  - rewrite (bool_decide_eq_false_2 (Some s = None ∧ _)) by (by intros [? _]).
    rewrite reviewed_not_unreviewed. by destruct (bool_decide _).
  - case_bool_decide as Hin.
    + by rewrite bool_decide_eq_true_2.
    + rewrite bool_decide_eq_false_2; [done|]. by intros [_ ?].
Qed.

Lemma isUnreviewed_unshadowed st k :
  ¬ shadowedId st k →
  isUnreviewed (JsObject.prop (review_status st) k)
  = absentOrUnreviewed (review_status st !! k).
Proof.
  intros Hsh. rewrite isUnreviewed_prop.
  rewrite (bool_decide_eq_false_2 _ Hsh), andb_true_r.
  destruct (review_status st !! k) as [s|]; [|done]. simpl.
  by rewrite reviewed_not_unreviewed.
Qed.

Lemma isUnreviewed_shadowed st k :
  shadowedId st k → isUnreviewed (JsObject.prop (review_status st) k) = false.
Proof.
  intros Hsh. rewrite isUnreviewed_prop.
  rewrite (bool_decide_eq_true_2 _ Hsh). apply andb_false_r.
Qed.

(** Without shadowed album the list the page filters is the unreviewed
    subsequence. *)
Lemma unreviewed_unshadowed st :
  (∀ a, a ∈ albums st → ¬ shadowedId st (albumId a)) →
  ReviewPage.unreviewed st = unreviewedSeq st.
Proof.
  intros Hsh. unfold ReviewPage.unreviewed, unreviewedSeq, unreviewedId,
    getAllAlbums, getAllReviewStatus.
  apply filter_ext_in. intros a Ha. by rewrite isUnreviewed_unshadowed by auto.
Qed.
End StatusReads.

(** ** The two loops of [importAlbums] *)

Section ImportLoops.
Import Storage Spec.
Implicit Types (S : gmap string AlbumReviewStatus) (M : gmap string AlbumMeta).

(** After the first loop the map holds exactly the reviewed albums, and
    the retained metadata is the stored metadata of those albums. *)
Lemma keepReviewed_fold S M (l : list Album) :
  let r := foldl (keepReviewed S M) ([], ∅) l in
  JsMap.keyed albumId r.1 ∧
  (∀ k, k ∈ JsMap.keys r.1 ↔ k ∈ albumId <$> l ∧ isReviewed (S !! k)) ∧
  (∀ k, r.2 !! k = if decide (k ∈ JsMap.keys r.1) then M !! k else None) ∧
  (NoDup (albumId <$> l) →
   JsMap.values r.1 = filter (λ a, isReviewed (S !! albumId a)) l).
Proof.
  induction l as [|a l IH] using rev_ind; simpl.
  - split_and!; [constructor| |done|done].
    intros k. unfold JsMap.keys. simpl. rewrite elem_of_nil. tauto.
  - rewrite foldl_app. simpl.
    destruct (foldl (keepReviewed S M) ([], ∅) l) as [m mt] eqn:E.
    simpl in IH. destruct IH as (Hkeyed & Hkeys & Hmeta & Hvals).
    unfold keepReviewed.
    destruct (isReviewed (S !! albumId a)) eqn:Hrev; simpl.
    + split_and!.
      * by apply keyed_set.
      * intros k. rewrite keys_set, Hkeys, fmap_app, elem_of_app. simpl.
        rewrite list_elem_of_singleton. split.
        -- intros [-> | [? ?]]; [by rewrite Hrev; auto|auto].
        -- intros [[? | ->] ?]; auto.
      * intros k. destruct (decide (k = albumId a)) as [->|Hne].
        -- rewrite decide_True by (apply keys_set; auto).
           destruct (M !! albumId a) eqn:HM.
           ++ by rewrite lookup_insert_eq.
           ++ rewrite Hmeta. by case_decide.
        -- assert (mt' : (match M !! albumId a with
                          | Some m0 => <[albumId a:=m0]> mt
                          | None => mt end) !! k = mt !! k).
           { destruct (M !! albumId a); [by rewrite lookup_insert_ne|done]. }
           rewrite mt', Hmeta.
           destruct (decide (k ∈ JsMap.keys m)) as [Hin|Hnin].
           ++ rewrite decide_True; [done|]. apply keys_set; auto.
           ++ rewrite decide_False; [done|]. rewrite keys_set. tauto.
      * intros Hnd. rewrite fmap_app in Hnd. apply NoDup_app in Hnd as (Hnd & Hdisj & _).
        rewrite filter_app, filter_cons_True, filter_nil by by rewrite Hrev.
        rewrite set_fresh.
        -- unfold JsMap.values in *. rewrite fmap_app. simpl. by rewrite Hvals.
        -- rewrite Hkeys. intros [Hin _]. apply (Hdisj _ Hin). simpl. left.
    + split_and!; [done| | done|].
      * intros k. rewrite Hkeys, fmap_app, elem_of_app. simpl.
        rewrite list_elem_of_singleton. split; [tauto|].
        intros [[? | ->] Hk]; [tauto|]. by rewrite Hrev in Hk.
      * intros Hnd. rewrite fmap_app in Hnd. apply NoDup_app in Hnd as (Hnd & _ & _).
        rewrite filter_app, filter_cons_False, filter_nil, app_nil_r; [auto|].
        rewrite Hrev. intros [].
Qed.

Lemma keys_set_L {V : Type} k (v : V) (m : list (string * V)) :
  list_to_set (C := gset string) (JsMap.keys (JsMap.set k v m))
  = {[k]} ∪ list_to_set (JsMap.keys m).
Proof.
  apply set_eq. intros x.
  rewrite elem_of_union, elem_of_singleton, !elem_of_list_to_set.
  apply keys_set.
Qed.

(** The second loop adds every incoming identifier and counts the
    collisions with what the map held when the row arrived. *)
Lemma addIncoming_fold nowIso (l : list Album) m mt d :
  let r := foldl (addIncoming nowIso) (m, mt, d) l in
  (JsMap.keyed albumId m → JsMap.keyed albumId r.1.1) ∧
  (∀ k, k ∈ JsMap.keys r.1.1 ↔ k ∈ JsMap.keys m ∨ k ∈ albumId <$> l) ∧
  r.2 = d + collisions (list_to_set (JsMap.keys m)) l.
Proof.
  revert m mt d. induction l as [|a l IH]; intros m mt d; simpl.
  - split_and!; [done| |lia]. intros k. rewrite elem_of_nil. tauto.
  - specialize (IH (JsMap.set (albumId a) a m)
                   (JsObject.set (albumId a) (mkMeta (albumId a) nowIso) mt)
                   (if JsMap.has (albumId a) m then d + 1 else d)).
    simpl in IH. destruct IH as (Hkeyed & Hkeys & Hd). split_and!.
    + intros Hm. apply Hkeyed. by apply keyed_set.
    + intros k. rewrite Hkeys, keys_set, elem_of_cons. tauto.
    + rewrite Hd, keys_set_L. unfold JsMap.has.
      destruct (decide (albumId a ∈ (list_to_set (JsMap.keys m) : gset string)))
        as [Hin|Hnin].
      * rewrite bool_decide_eq_true_2 by by apply elem_of_list_to_set in Hin. lia.
      * rewrite bool_decide_eq_false_2; [lia|].
        intros Hin. apply Hnin. by apply elem_of_list_to_set.
Qed.
End ImportLoops.

(** ** Import *)

Section ImportMerge.
Import Storage Spec Repository Examples.

Lemma lookup_filter_in {A : Type} (ids : gset string) (m : gmap string A) k :
  filter (λ kv : string * A, kv.1 ∈ ids) m !! k
  = if decide (k ∈ ids) then m !! k else None.
Proof.
  rewrite map_lookup_filter. destruct (m !! k) as [x|]; simpl.
  - by case_guard.
  - by case_decide.
Qed.

Lemma lookup_filter_keys {A : Type} (l : list string) (m : gmap string A) k :
  filter (λ kv : string * A, kv.1 ∈ (list_to_set l : gset string)) m !! k
  = if decide (k ∈ l) then m !! k else None.
Proof.
  rewrite lookup_filter_in. destruct (decide (k ∈ l)) as [Hin|Hnin].
  - rewrite decide_True; [done|]. by apply elem_of_list_to_set.
  - rewrite decide_False; [done|]. by rewrite elem_of_list_to_set.
Qed.

(** The keys of the map after the first loop, as a set. *)
Lemma keepReviewed_keys_L (st : Store) :
  list_to_set (C := gset string)
    (JsMap.keys (foldl (keepReviewed (review_status st) (album_meta st))
                       ([], ∅) (albums st)).1)
  = list_to_set (albumId <$> reviewedAlbums st).
Proof.
  destruct (keepReviewed_fold (review_status st) (album_meta st) (albums st))
    as (_ & Hkeys & _ & _).
  apply set_eq. intros k. rewrite !elem_of_list_to_set, Hkeys.
  unfold reviewedAlbums, reviewedId. rewrite !list_elem_of_fmap.
  setoid_rewrite list_elem_of_filter. split.
  - intros ((a & -> & Hin) & Ha). eauto.
  - intros (a & -> & Ha & Hin). eauto.
Qed.

(** What [importAlbums] leaves in the store and what it reports. *)
Lemma importAlbums_shape nowIso newAlbums st :
  let r := importAlbums nowIso newAlbums st in
  (∀ k, k ∈ albumIdsOf r.1 ↔
        (k ∈ albumIdsOf st ∧ reviewedId st k) ∨ k ∈ albumId <$> newAlbums) ∧
  (∀ k, review_status r.1 !! k =
        if decide (k ∈ albumIdsOf r.1) then review_status st !! k else None) ∧
  (∀ k, is_Some (album_meta r.1 !! k) → k ∈ albumIdsOf r.1) ∧
  imported r.2 = Z.of_nat (length newAlbums) ∧
  duplicates r.2 =
    collisions (list_to_set (albumId <$> reviewedAlbums st)) newAlbums.
Proof.
  unfold importAlbums, albumIdsOf, getAllAlbums, getAllReviewStatus, getAlbumMetaMap.
  pose proof (keepReviewed_fold (review_status st) (album_meta st) (albums st)) as H1.
  pose proof (keepReviewed_keys_L st) as HL.
  destruct (foldl _ ([], ∅) (albums st)) as [m0 mt0]. simpl in H1, HL.
  destruct H1 as (Hkeyed0 & Hkeys0 & _ & _).
  pose proof (addIncoming_fold nowIso newAlbums m0 mt0 0) as H2.
  destruct (foldl _ (m0, mt0, 0) newAlbums) as [[m mt] d]. simpl in H2.
  destruct H2 as (Hkeyed & Hkeys & Hd). simpl.
  rewrite (keyed_values albumId m) by auto.
  split_and!.
  - intros k. rewrite Hkeys, Hkeys0. done.
  - intros k. apply lookup_filter_keys.
  - intros k. rewrite lookup_filter_keys.
    case_decide as Hin; [done|by intros [? ?]].
  - done.
  - rewrite Hd, HL. lia.
Qed.

Lemma NoDup_keys_set {V : Type} k (v : V) (m : list (string * V)) :
  NoDup (JsMap.keys m) → NoDup (JsMap.keys (JsMap.set k v m)).
Proof.
  induction m as [|[k0 v0] m IH]; simpl; intros Hnd.
  - apply NoDup_singleton.
  - apply NoDup_cons in Hnd as [Hk0 Hnd].
    destruct (decide (k0 = k)) as [->|Hne]; simpl.
    + by apply NoDup_cons.
    + apply NoDup_cons. split; [|by apply IH].
      fold (JsMap.keys (JsMap.set k v m)). rewrite keys_set.
      intros [?|?]; [congruence|done].
Qed.

Lemma elem_of_set {V : Type} k (v : V) (m : list (string * V)) k' v' :
  NoDup (JsMap.keys m) →
  (k', v') ∈ JsMap.set k v m ↔ (k' = k ∧ v' = v) ∨ (k' ≠ k ∧ (k', v') ∈ m).
Proof.
  induction m as [|[k0 v0] m IH]; simpl; intros Hnd.
  - rewrite list_elem_of_singleton, elem_of_nil. split.
    + intros [= -> ->]. by left.
    + intros [[-> ->]|[_ []]]. done.
  - apply NoDup_cons in Hnd as [Hk0 Hnd].
    destruct (decide (k0 = k)) as [->|Hne].
    + rewrite !elem_of_cons. split.
      * intros [[= -> ->]|Hin]; [by left|]. right. split; [|by right].
        intros ->. apply Hk0. by apply (list_elem_of_fmap_2 fst) in Hin.
      * intros [[-> ->]|[Hne [[= ? ?]|Hin]]]; [by left|done|by right].
    + rewrite !elem_of_cons, IH by done. split.
      * intros [[= -> ->]|[[-> ->]|[Hne' Hin]]]; [right|by left|right]; auto.
      * intros [[-> ->]|[Hne' [[= -> ->]|Hin]]]; auto.
Qed.

Lemma NoDup_set_all (l : list Album) (m : list (string * Album)) :
  NoDup (JsMap.keys m) →
  NoDup (JsMap.keys (foldl (λ m a, JsMap.set (albumId a) a m) m l)).
Proof.
  revert m. induction l as [|a l IH]; intros m Hnd; [done|].
  simpl. by apply IH, NoDup_keys_set.
Qed.

(** Setting the rows of a list one after the other: for every key the last
    row that carries it wins, and the keys the list does not name keep what
    they had. *)
Lemma elem_of_set_all (l : list Album) (m : list (string * Album)) k v :
  NoDup (JsMap.keys m) →
  (k, v) ∈ foldl (λ m a, JsMap.set (albumId a) a m) m l ↔
  last (filter (λ a, albumId a = k) l) = Some v ∨
  ((k ∉ albumId <$> l) ∧ (k, v) ∈ m).
Proof.
  intros Hnd. induction l as [|a l IH] using rev_ind.
  - simpl. split; [intros ?; right; split; [apply not_elem_of_nil|done]|].
    by intros [?|[_ ?]].
  - rewrite foldl_app. simpl.
    rewrite elem_of_set, IH by by apply NoDup_set_all.
    rewrite filter_app, fmap_app, not_elem_of_app.
    simpl. rewrite list_elem_of_singleton.
    destruct (decide (albumId a = k)) as [Ha|Ha].
    + rewrite filter_cons_True, filter_nil, last_snoc by done. split.
      * intros [[_ ->]|[Hne _]]; [by left|congruence].
      * intros [[= ->]|[[_ Hne] _]]; [by left|congruence].
    + rewrite filter_cons_False, filter_nil, app_nil_r by done. split.
      * intros [[-> _]|[_ [?|[? ?]]]]; [done|by left|right]. split_and!; auto.
      * intros [?|[[? ?] ?]]; right; (split; [congruence|]); [by left|by right].
Qed.

Lemma keepReviewed_map S M (l : list Album) m mt :
  (foldl (keepReviewed S M) (m, mt) l).1
  = foldl (λ m a, JsMap.set (albumId a) a m) m
          (filter (λ a, isReviewed (S !! albumId a)) l).
Proof.
  revert m mt. induction l as [|a l IH]; intros m mt; [done|].
  simpl.
  destruct (isReviewed (S !! albumId a)) eqn:Hrev.
  - rewrite filter_cons_True by by rewrite Hrev. simpl. apply IH.
  - rewrite filter_cons_False by (rewrite Hrev; intros []). apply IH.
Qed.

Lemma addIncoming_map nowIso (l : list Album) m mt d :
  (foldl (addIncoming nowIso) (m, mt, d) l).1.1
  = foldl (λ m a, JsMap.set (albumId a) a m) m l.
Proof.
  revert m mt d. induction l as [|a l IH]; intros m mt d; [done|]. simpl. apply IH.
Qed.

(** The metadata after the second loop: every incoming identifier gets the
    entry of this import, except [__proto__] when the object has no own entry
    of that name. *)
Lemma addIncoming_meta nowIso (l : list Album) m mt d k :
  k ≠ "__proto__" ∨ is_Some (mt !! k) →
  (foldl (addIncoming nowIso) (m, mt, d) l).1.2 !! k
  = if decide (k ∈ albumId <$> l) then Some (mkMeta k nowIso) else mt !! k.
Proof.
  revert m mt d. induction l as [|a l IH]; intros m mt d Hk; simpl.
  - done.
  - rewrite IH.
    + destruct (decide (k ∈ albumId <$> l)) as [Hin|Hout].
      * rewrite decide_True; [done|by right].
      * destruct (decide (k = albumId a)) as [->|Hne].
        -- rewrite decide_True by left. rewrite set_insert by done.
           by rewrite lookup_insert_eq.
        -- rewrite decide_False, lookup_set_ne; [done|done|].
           rewrite elem_of_cons. tauto.
    + destruct Hk as [Hk|Hk]; [by left|right].
      destruct (decide (k = albumId a)) as [->|Hne].
      * rewrite set_insert by by right. by rewrite lookup_insert_eq.
      * by rewrite lookup_set_ne.
Qed.

Lemma addIncoming_meta_proto nowIso (l : list Album) m mt d :
  mt !! "__proto__" = None →
  (foldl (addIncoming nowIso) (m, mt, d) l).1.2 !! "__proto__" = None.
Proof.
  revert m mt d. induction l as [|a l IH]; intros m mt d Hnone; simpl; [done|].
  apply IH. destruct (decide ("__proto__" = albumId a)) as [<-|Hne].
  - by rewrite set_proto.
  - by rewrite lookup_set_ne.
Qed.

Lemma keyed_find (m : list (string * Album)) k v :
  JsMap.keyed albumId m → NoDup (JsMap.keys m) → (k, v) ∈ m →
  findAlbum k (JsMap.values m) = Some v.
Proof.
  unfold JsMap.keyed, JsMap.keys, JsMap.values, findAlbum.
  induction m as [|[k0 v0] m IH]; simpl; intros Hkeyed Hnd Hin.
  - by apply elem_of_nil in Hin.
  - apply Forall_cons in Hkeyed as [Hk0 Hkeyed]. simpl in Hk0.
    apply NoDup_cons in Hnd as [Hout Hnd].
    apply elem_of_cons in Hin as [[= -> ->]|Hin].
    + by rewrite bool_decide_eq_true_2.
    + rewrite bool_decide_eq_false_2; [by apply IH|].
      rewrite Hk0. intros ->. apply Hout. by apply (list_elem_of_fmap_2 fst) in Hin.
Qed.

Lemma last_filter_find k (l : list Album) :
  NoDup (albumId <$> l) → last (filter (λ a, albumId a = k) l) = findAlbum k l.
Proof.
  unfold findAlbum. induction l as [|a l IH]; simpl; intros Hnd; [done|].
  apply NoDup_cons in Hnd as [Hout Hnd].
  destruct (decide (albumId a = k)) as [Ha|Ha].
  - rewrite filter_cons_True, bool_decide_eq_true_2 by done.
    replace (filter (λ a0, albumId a0 = k) l) with (@nil Album); [done|].
    symmetry. apply elem_of_nil_inv. intros b [Hb Hin]%list_elem_of_filter.
    apply Hout. rewrite Ha, <- Hb. by apply list_elem_of_fmap_2.
  - rewrite filter_cons_False, bool_decide_eq_false_2 by done. by apply IH.
Qed.

(** The merged map of [importAlbums], row by row. *)
Lemma importAlbums_rows nowIso newAlbums st :
  let st' := (importAlbums nowIso newAlbums st).1 in
  NoDup (albumIdsOf st') ∧
  (∀ k v,
     last (filter (λ a, albumId a = k) newAlbums) = Some v ∨
     ((k ∉ albumId <$> newAlbums) ∧
      last (filter (λ a, albumId a = k) (reviewedAlbums st)) = Some v) →
     findAlbum k (albums st') = Some v) ∧
  (∀ k, k ∈ albumId <$> newAlbums → k ≠ "__proto__" →
        album_meta st' !! k = Some (mkMeta k nowIso)) ∧
  (¬ reviewedId st "__proto__" → album_meta st' !! "__proto__" = None) ∧
  (∀ k, k ∉ albumId <$> newAlbums → keptId st k →
        album_meta st' !! k = album_meta st !! k).
Proof.
  unfold importAlbums, albumIdsOf, getAllAlbums, getAllReviewStatus, getAlbumMetaMap.
  pose proof (keepReviewed_fold (review_status st) (album_meta st) (albums st)) as H1.
  pose proof (keepReviewed_map (review_status st) (album_meta st) (albums st) [] ∅) as HM1.
  destruct (foldl _ ([], ∅) (albums st)) as [m0 mt0]. simpl in H1, HM1.
  destruct H1 as (Hkeyed0 & Hkeys0 & Hmeta0 & _).
  pose proof (addIncoming_fold nowIso newAlbums m0 mt0 0) as H2.
  pose proof (addIncoming_map nowIso newAlbums m0 mt0 0) as HM2.
  pose proof (addIncoming_meta nowIso newAlbums m0 mt0 0) as HT2.
  pose proof (addIncoming_meta_proto nowIso newAlbums m0 mt0 0) as HP2.
  destruct (foldl _ (m0, mt0, 0) newAlbums) as [[m mt] d]. simpl in H2, HM2, HT2, HP2.
  destruct H2 as (Hkeyed & Hkeys & _). specialize (Hkeyed Hkeyed0).
  assert (Hnd0 : NoDup (JsMap.keys m0)).
  { rewrite HM1. apply NoDup_set_all, NoDup_nil_2. }
  assert (Hnd : NoDup (JsMap.keys m)).
  { rewrite HM2. by apply NoDup_set_all. }
  cbn [fst saveAlbumMetaMap saveReviewStatus saveAlbums albums album_meta].
  split_and!.
  - by rewrite (keyed_values albumId m).
  - intros k v Hv. apply keyed_find; [done|done|].
    rewrite HM2. apply elem_of_set_all; [done|].
    destruct Hv as [Hv|[Hout Hv]]; [by left|right]. split; [done|].
    rewrite HM1. apply elem_of_set_all; [apply NoDup_nil_2|]. by left.
  - intros k Hin Hk. rewrite lookup_filter_keys, HT2 by by left.
    rewrite decide_True by (apply Hkeys; by right). by rewrite decide_True.
  - intros Hrev. rewrite lookup_filter_keys, HP2; [by case_decide|].
    rewrite Hmeta0, decide_False; [done|]. rewrite Hkeys0. by intros [_ ?].
  - intros k Hout [Hin Hrev]. rewrite lookup_filter_keys.
    assert (Hk0 : k ∈ JsMap.keys m0) by by apply Hkeys0.
    rewrite decide_True by (apply Hkeys; by left).
    destruct (decide (k = "__proto__" ∧ mt0 !! k = None)) as [[-> Hnone]|Hk].
    + rewrite HP2 by done. rewrite Hmeta0, decide_True in Hnone by done. done.
    + rewrite HT2.
      * by rewrite decide_False, Hmeta0, decide_True.
      * destruct (decide (k = "__proto__")) as [->|?]; [right|by left].
        destruct (mt0 !! "__proto__") eqn:E; [eauto|]. by destruct Hk.
Qed.

Lemma findAlbum_unique (l : list Album) a :
  NoDup (albumId <$> l) → a ∈ l → findAlbum (albumId a) l = Some a.
Proof.
  unfold findAlbum. induction l as [|b l IH]; simpl; intros Hnd Hin.
  - by apply elem_of_nil in Hin.
  - apply NoDup_cons in Hnd as [Hout Hnd].
    apply elem_of_cons in Hin as [->|Hin].
    + by rewrite bool_decide_eq_true_2.
    + rewrite bool_decide_eq_false_2; [by apply IH|].
      intros Heq. apply Hout. rewrite Heq. by apply list_elem_of_fmap_2.
Qed.

Lemma NoDup_fmap_filter (P : Album → Prop) `{!∀ a, Decision (P a)} (l : list Album) :
  NoDup (albumId <$> l) → NoDup (albumId <$> filter P l).
Proof.
  induction l as [|a l IH]; simpl; intros Hnd; [done|].
  apply NoDup_cons in Hnd as [Hout Hnd]. rewrite filter_cons.
  destruct (decide (P a)); [|by apply IH].
  simpl. apply NoDup_cons. split; [|by apply IH].
  intros (b & Hb & [_ Hin]%list_elem_of_filter)%list_elem_of_fmap.
  apply Hout. rewrite Hb. by apply list_elem_of_fmap_2.
Qed.

Lemma set_all_fresh (l : list Album) (m : list (string * Album)) :
  NoDup (albumId <$> l) → (∀ a, a ∈ l → albumId a ∉ JsMap.keys m) →
  foldl (λ m a, JsMap.set (albumId a) a m) m l = m ++ ((λ a, (albumId a, a)) <$> l).
Proof.
  revert m. induction l as [|a l IH]; intros m Hnd Hfresh; simpl.
  - by rewrite app_nil_r.
  - apply NoDup_cons in Hnd as [Hout Hnd].
    rewrite set_fresh by (apply Hfresh; left).
    rewrite IH; [by rewrite <- app_assoc|done|].
    intros b Hb. unfold JsMap.keys. rewrite fmap_app, elem_of_app. simpl.
    rewrite list_elem_of_singleton. intros [Hin|Heq].
    + by apply (Hfresh b); [right|].
    + apply Hout. rewrite <- Heq. by apply list_elem_of_fmap_2.
Qed.

Lemma collisions_bounds (l : list Album) (seen : gset string) :
  0 ≤ collisions seen l ≤ Z.of_nat (length l).
Proof.
  revert seen. induction l as [|a l IH]; intros seen; simpl; [lia|].
  specialize (IH ({[albumId a]} ∪ seen)). case_decide; lia.
Qed.

Lemma collisions_fresh (l : list Album) (seen : gset string) :
  NoDup (albumId <$> l) → (∀ a, a ∈ l → albumId a ∉ seen) → collisions seen l = 0.
Proof.
  revert seen. induction l as [|a l IH]; intros seen Hnd Hfresh; simpl; [done|].
  apply NoDup_cons in Hnd as [Hout Hnd].
  rewrite decide_False by (apply Hfresh; left).
  rewrite IH; [done|done|]. intros b Hb.
  rewrite elem_of_union, elem_of_singleton. intros [Heq|Hin].
  - apply Hout. rewrite <- Heq. by apply list_elem_of_fmap_2.
  - by apply (Hfresh b); [right|].
Qed.

(** C3. Import replaces the unreviewed part of the catalog with the batch.
    An identifier whose status row is missing or ['未抽卡'] and that no
    incoming row carries is gone from the Albums collection after
    [importAlbums], and so are its ReviewStatus and ImportMeta entries.  The
    albums afterwards are those of the reviewed albums and of the batch, no
    identifier twice, and every identifier of the batch that is not reviewed
    has the album that the last incoming row for it gives, with the status
    row it had, if any, and with the metadata of this import (none is stored
    under [__proto__]). *)
Theorem import_drops_unreviewed_not_incoming nowIso newAlbums st :
  let st' := (importAlbums nowIso newAlbums st).1 in
  (∀ id, unreviewedId st id → id ∉ albumId <$> newAlbums →
         (id ∉ albumIdsOf st') ∧
         review_status st' !! id = None ∧
         album_meta st' !! id = None) ∧
  (∀ id, id ∈ albumIdsOf st' ↔ keptId st id ∨ id ∈ albumId <$> newAlbums) ∧
  NoDup (albumIdsOf st') ∧
  (∀ id b, ¬ reviewedId st id →
           last (filter (λ a, albumId a = id) newAlbums) = Some b →
           findAlbum id (albums st') = Some b ∧
           review_status st' !! id = review_status st !! id ∧
           (id ≠ "__proto__" → album_meta st' !! id = Some (mkMeta id nowIso))).
Proof.
  intros st'.
  destruct (importAlbums_shape nowIso newAlbums st) as (Hids & Hst & Hmeta & _).
  destruct (importAlbums_rows nowIso newAlbums st) as (Hnd & Hrow & Hnow & _).
  fold st' in Hids, Hst, Hmeta, Hnd, Hrow, Hnow.
  split_and!.
  - intros id Hun Hnew.
    assert (Hout : id ∉ albumIdsOf st').
    { rewrite Hids. intros [[_ Hrev]|Hin]; [|done].
      unfold unreviewedId, reviewedId, absentOrUnreviewed, isReviewed in *.
      destruct (review_status st !! id) as [s|]; [|done].
      apply bool_decide_unpack in Hun. apply bool_decide_unpack in Hrev. congruence. }
    split_and!; [done| |].
    + rewrite Hst. by rewrite decide_False.
    + apply eq_None_not_Some. intros Hsome. by apply Hout, Hmeta.
  - intros id. apply Hids.
  - done.
  - intros id b _ Hlast.
    assert (Hin : id ∈ albumId <$> newAlbums).
    { apply last_Some_elem_of, list_elem_of_filter in Hlast as [<- Hb].
      by apply list_elem_of_fmap_2. }
    split_and!.
    + apply Hrow. by left.
    + rewrite Hst, decide_True; [done|]. apply Hids. by right.
    + intros Hid. by apply Hnow.
Qed.

(** C10. Importing two rows with the same identifier into the empty store
    leaves one album, the later row, and reports [imported = 2] and
    [duplicates = 1]; the metadata holds the one entry of that identifier,
    or nothing when the identifier is [__proto__]; in general [duplicates]
    counts the incoming rows whose identifier is already in the merged set
    when they are applied: the reviewed albums and the rows of the batch
    before them. *)
Theorem import_same_id_twice :
  (∀ nowIso a b,
     albumId a = albumId b →
     importAlbums nowIso [a; b] emptyStore
     = (mkStore [b] ∅
          (if decide (albumId b = "__proto__") then ∅
           else {[albumId b := mkMeta (albumId b) nowIso]}),
        mkImportResult 2 1)) ∧
  (∀ nowIso newAlbums st,
     let r := (importAlbums nowIso newAlbums st).2 in
     imported r = Z.of_nat (length newAlbums) ∧
     duplicates r =
       collisions (list_to_set (albumId <$> reviewedAlbums st)) newAlbums).
Proof.
  split.
  - intros nowIso a b Heq.
    unfold importAlbums, emptyStore, getAllAlbums, getAllReviewStatus, getAlbumMetaMap.
    cbn [foldl albums review_status album_meta addIncoming JsMap.set length].
    rewrite Heq, decide_True by done.
    unfold JsMap.has, JsMap.keys, JsMap.values.
    cbn [fmap list_fmap fst snd].
    rewrite bool_decide_eq_true_2 by (apply elem_of_cons; auto).
    rewrite bool_decide_eq_false_2 by apply not_elem_of_nil.
    unfold saveAlbumMetaMap, saveReviewStatus, saveAlbums.
    cbn [albums review_status album_meta].
    rewrite map_filter_empty.
    destruct (decide (albumId b = "__proto__")) as [Hp|Hp].
    + rewrite Hp, !set_proto by apply lookup_empty.
      by rewrite map_filter_empty.
    + rewrite !set_insert by by left.
      rewrite insert_insert_eq.
      rewrite map_filter_insert_True by (apply elem_of_list_to_set, elem_of_cons; auto).
      by rewrite map_filter_empty.
  - intros nowIso newAlbums st r.
    destruct (importAlbums_shape nowIso newAlbums st) as (_ & _ & _ & Hi & Hd).
    done.
Qed.
End ImportMerge.

(** ** Import of an empty batch, and import over a reviewed album *)

Section ImportMore.
Import Storage Spec Repository Examples.

(** C2, as stated, fails: an empty batch is not a no-op, the album of
    [onlyA], not reviewed, is dropped with its metadata. *)
Lemma import_empty_batch_drops_unreviewed :
  let r := importAlbums t1 [] onlyA in
  ¬ (albums r.1 = albums onlyA ∧
     review_status r.1 = review_status onlyA ∧
     album_meta r.1 = album_meta onlyA ∧
     imported r.2 = 0 ∧ duplicates r.2 = 0).
Proof. intros r (Halbums & _). vm_compute in Halbums. discriminate. Qed.

(** C2, amended. [importAlbums] with an empty batch reports
    [imported = 0] and [duplicates = 0] and retains exactly the stored
    albums that are reviewed: their Album rows (in stored order, when the
    stored identifiers are distinct), their ReviewStatus rows and their
    ImportMeta rows are as before, and every other identifier is absent from
    the three collections.  Nothing changes when every stored album is
    reviewed, the stored identifiers are distinct and the two maps have no
    key outside the Albums collection. *)
Theorem import_empty_batch_keeps_reviewed nowIso st :
  let r := importAlbums nowIso [] st in
  imported r.2 = 0 ∧ duplicates r.2 = 0 ∧
  (∀ id, id ∈ albumIdsOf r.1 ↔ keptId st id) ∧
  (∀ id, keptId st id →
         review_status r.1 !! id = review_status st !! id ∧
         album_meta r.1 !! id = album_meta st !! id) ∧
  (∀ id, ¬ keptId st id →
         review_status r.1 !! id = None ∧ album_meta r.1 !! id = None) ∧
  (NoDup (albumIdsOf st) → albums r.1 = reviewedAlbums st) ∧
  (NoDup (albumIdsOf st) → consistent st →
   (∀ id, id ∈ albumIdsOf st → reviewedId st id) → r.1 = st).
Proof.
  intros r.
  assert (Hshape :
    (∀ id, id ∈ albumIdsOf r.1 ↔ keptId st id) ∧
    (∀ id, review_status r.1 !! id =
           if decide (id ∈ albumIdsOf r.1) then review_status st !! id else None) ∧
    (∀ id, album_meta r.1 !! id =
           if decide (id ∈ albumIdsOf r.1) then album_meta st !! id else None) ∧
    (NoDup (albumIdsOf st) → albums r.1 = reviewedAlbums st) ∧
    imported r.2 = 0 ∧ duplicates r.2 = 0).
  { subst r. unfold importAlbums, albumIdsOf, keptId, reviewedId, reviewedAlbums,
      getAllAlbums, getAllReviewStatus, getAlbumMetaMap.
    pose proof (keepReviewed_fold (review_status st) (album_meta st) (albums st)) as H1.
    destruct (foldl _ ([], ∅) (albums st)) as [m0 mt0]. simpl in H1.
    destruct H1 as (Hkeyed & Hkeys & Hmeta & Hvals).
    cbn [foldl fst snd saveAlbumMetaMap saveReviewStatus saveAlbums
         albums review_status album_meta imported duplicates length].
    rewrite (keyed_values albumId m0) by auto.
    split_and!; try done.
    - intros id. apply lookup_filter_keys.
    - intros id. rewrite lookup_filter_keys, Hmeta. by case_decide. }
  destruct Hshape as (Hids & Hst & Hmt & Hal & Hi & Hd).
  split_and!; try done.
  - intros id Hk. rewrite Hst, Hmt. rewrite !decide_True by by apply Hids. done.
  - intros id Hk. rewrite Hst, Hmt. rewrite !decide_False by by rewrite Hids. done.
  - intros Hnd [Hcs Hcm] Hall.
    assert (Hkept : ∀ id, id ∈ albumIdsOf st → id ∈ albumIdsOf r.1).
    { intros id Hin. apply Hids. split; auto. }
    destruct r as [[al' s' m'] res]. destruct st as [al s m]. simpl in *.
    f_equal.
    + rewrite Hal by done. unfold reviewedAlbums. simpl.
      apply filter_all. intros a Ha. apply Hall.
      unfold albumIdsOf. simpl. by apply list_elem_of_fmap_2.
    + apply map_eq. intros id. rewrite Hst.
      case_decide as Hin; [done|]. symmetry. apply eq_None_not_Some.
      intros Hs. apply Hin, Hkept, Hcs, Hs.
    + apply map_eq. intros id. rewrite Hmt.
      case_decide as Hin; [done|]. symmetry. apply eq_None_not_Some.
      intros Hs. apply Hin, Hkept, Hcm, Hs.
Qed.

(** On [onlyAReviewed], whose only album is reviewed, the empty batch changes
    nothing. *)
Lemma import_empty_batch_keeps_reviewed_witness :
  (importAlbums t1 [] onlyAReviewed).1 = onlyAReviewed.
Proof.
  destruct (import_empty_batch_keeps_reviewed t1 onlyAReviewed)
    as (_ & _ & _ & _ & _ & _ & Hsame).
  apply Hsame.
  - apply NoDup_singleton.
  - split; intros id [x Hx]; destruct (decide (id = "A")) as [->|Hne].
    + left.
    + simpl in Hx. by rewrite lookup_singleton_ne in Hx.
    + left.
    + simpl in Hx. by rewrite lookup_singleton_ne in Hx.
  - intros id Hin. apply list_elem_of_singleton in Hin as ->. exact I.
Defined.

(** C1, evaluated.  [onlyAReviewed] holds one album, reviewed and imported
    at [t0].  Importing one row with its identifier at [t1] keeps the
    ReviewStatus row and reports [imported = 1] and [duplicates = 1], but
    the Album row becomes the incoming row and the ImportMeta row gets
    [importedAt = t1]. *)
Theorem import_overwrites_reviewed_album :
  reviewedId onlyAReviewed "A" ∧
  albums onlyAReviewed = [albumA] ∧
  album_meta onlyAReviewed !! "A" = Some (mkMeta "A" t0) ∧
  let r := importAlbums t1 [albumA2] onlyAReviewed in
  albums r.1 = [albumA2] ∧
  album_meta r.1 !! "A" = Some (mkMeta "A" t1) ∧
  review_status r.1 !! "A" = review_status onlyAReviewed !! "A" ∧
  r.2 = mkImportResult 1 1.
Proof. vm_compute. split_and!; done. Qed.
End ImportMore.

(** ** Status updates *)

Section StatusUpdates.
Import Storage Spec Repository Examples.
Implicit Types (S : gmap string AlbumReviewStatus) (l : list Album).

Lemma findAlbum_None id l : findAlbum id l = None ↔ id ∉ albumId <$> l.
Proof.
  unfold findAlbum. induction l as [|a l IH]; simpl.
  - split; [intros _; apply not_elem_of_nil|done].
  - rewrite not_elem_of_cons. case_bool_decide as Ha.
    + split; [done|]. intros [Hne _]. congruence.
    + rewrite IH. split; [|tauto]. intros Hout. split; [congruence|done].
Qed.

Lemma findAlbum_Some id l a :
  findAlbum id l = Some a → albumId a = id ∧ a ∈ l.
Proof.
  unfold findAlbum. induction l as [|b l IH]; simpl; [done|].
  case_bool_decide as Hb.
  - intros [= ->]. split; [done|left].
  - intros [? ?]%IH. split; [done|by right].
Qed.

Lemma findAlbum_is_Some id l : id ∈ albumId <$> l → is_Some (findAlbum id l).
Proof.
  intros Hin. destruct (findAlbum id l) eqn:E; [eauto|].
  by apply findAlbum_None in E.
Qed.

(** C5. [updateAlbumReviewStatus] on an identifier that no stored album
    carries throws and leaves the three collections as they were; on the
    identifier of a stored album it returns. *)
Theorem update_requires_album id status st :
  (id ∉ albumIdsOf st →
   updateAlbumReviewStatus id status st = (st, Thrown (Error "专辑不存在"))) ∧
  (id ∈ albumIdsOf st →
   (updateAlbumReviewStatus id status st).2 = Returned).
Proof.
  unfold updateAlbumReviewStatus, albumIdsOf, getAllAlbums. split.
  - intros Hout. apply findAlbum_None in Hout. by rewrite Hout.
  - intros Hin. apply findAlbum_is_Some in Hin as [a Ha]. by rewrite Ha.
Qed.

(** On [catalogABC]: an unknown identifier throws, the identifier of the
    second album does not. *)
Lemma update_requires_album_witness :
  updateAlbumReviewStatus "missing-id" (mkPartial None (Some Reviewed) None None) catalogABC
  = (catalogABC, Thrown (Error "专辑不存在")) ∧
  (updateAlbumReviewStatus "B" (mkPartial None (Some Reviewed) None None) catalogABC).2
  = Returned.
Proof.
  split.
  - apply (update_requires_album "missing-id"). by apply findAlbum_None.
  - apply (update_requires_album "B"). right. left.
Defined.
End StatusUpdates.

(** ** Batch reject *)

Section BatchReject.
Import Storage Spec Repository Examples.
Implicit Types (o : JsObject.t AlbumReviewStatus) (ids : list string).

Lemma rejectOne_other st o x k :
  k ≠ x → JsObject.own (rejectOne st o x) !! k = JsObject.own o !! k.
Proof.
  intros Hne. unfold rejectOne.
  destruct (isReviewed (JsObject.rowAt o x)); [done|].
  destruct (findAlbum x (getAllAlbums st)); [|done].
  by rewrite own_assign, lookup_set_ne.
Qed.

Lemma rejectOne_reviewed st o x k :
  isReviewed (JsObject.own o !! k) →
  JsObject.own (rejectOne st o x) !! k = JsObject.own o !! k.
Proof.
  intros Hrev. destruct (decide (k = x)) as [->|Hne]; [|by apply rejectOne_other].
  unfold rejectOne. destruct (JsObject.own o !! x) as [s|] eqn:Hs; [|done].
  rewrite (rowAt_own o x s Hs). by destruct (isReviewed (Some s)).
Qed.

Lemma rejectOne_no_album st o x k :
  findAlbum k (albums st) = None →
  JsObject.own (rejectOne st o x) !! k = JsObject.own o !! k.
Proof.
  intros Hnone. destruct (decide (k = x)) as [->|Hne]; [|by apply rejectOne_other].
  unfold rejectOne, getAllAlbums. rewrite Hnone.
  by destruct (isReviewed (JsObject.rowAt o x)).
Qed.

(** A row is stored unless the identifier is [__proto__] and the object has
    no own entry of that name. *)
Lemma rejectOne_rejects st o x a :
  ¬ isReviewed (JsObject.own o !! x) →
  x ≠ "__proto__" ∨ is_Some (JsObject.own o !! x) →
  findAlbum x (albums st) = Some a →
  JsObject.own (rejectOne st o x) = <[x := rejectedRow x a]> (JsObject.own o).
Proof.
  intros Hrev Hx Ha. unfold rejectOne, getAllAlbums. rewrite Ha.
  assert (Hrow : JsObject.rowAt o x = JsObject.own o !! x).
  { destruct (JsObject.own o !! x) as [s|] eqn:Hs; [by apply rowAt_own|].
    destruct Hx as [Hx|[? ?]]; [by apply rowAt_other|done]. }
  rewrite Hrow. destruct (isReviewed (JsObject.own o !! x)); [by destruct Hrev|].
  rewrite own_assign. by apply set_insert.
Qed.

Lemma rejectOne_proto st o x :
  JsObject.own o !! "__proto__" = None →
  JsObject.own (rejectOne st o x) !! "__proto__" = None.
Proof.
  intros Hnone. destruct (decide ("__proto__" = x)) as [<-|Hne].
  - unfold rejectOne. destruct (isReviewed _); [done|].
    destruct (findAlbum _ _); [|done].
    by rewrite own_assign, set_proto.
  - by rewrite rejectOne_other.
Qed.

Lemma reject_fold_reviewed st ids o k :
  isReviewed (JsObject.own o !! k) →
  JsObject.own (foldl (rejectOne st) o ids) !! k = JsObject.own o !! k.
Proof.
  revert o. induction ids as [|x ids IH]; intros o Hrev; simpl; [done|].
  rewrite IH; rewrite rejectOne_reviewed; done.
Qed.

Lemma reject_fold_no_album st ids o k :
  findAlbum k (albums st) = None →
  JsObject.own (foldl (rejectOne st) o ids) !! k = JsObject.own o !! k.
Proof.
  intros Hnone. revert o. induction ids as [|x ids IH]; intros o; simpl; [done|].
  by rewrite IH, rejectOne_no_album.
Qed.

Lemma reject_fold_not_listed st ids o k :
  k ∉ ids → JsObject.own (foldl (rejectOne st) o ids) !! k = JsObject.own o !! k.
Proof.
  revert o. induction ids as [|x ids IH]; intros o Hout; simpl; [done|].
  apply not_elem_of_cons in Hout as [Hne Hout].
  by rewrite IH, rejectOne_other.
Qed.

Lemma reject_fold_proto st ids o :
  JsObject.own o !! "__proto__" = None →
  JsObject.own (foldl (rejectOne st) o ids) !! "__proto__" = None.
Proof.
  revert o. induction ids as [|x ids IH]; intros o Hnone; simpl; [done|].
  by apply IH, rejectOne_proto.
Qed.

Lemma reject_fold_rejects st ids o k a :
  k ∈ ids → ¬ isReviewed (JsObject.own o !! k) →
  k ≠ "__proto__" ∨ is_Some (JsObject.own o !! k) →
  findAlbum k (albums st) = Some a →
  JsObject.own (foldl (rejectOne st) o ids) !! k = Some (rejectedRow k a).
Proof.
  intros Hin Hrev Hk Ha. revert o Hrev Hk.
  induction ids as [|x ids IH]; intros o Hrev Hk; [by apply elem_of_nil in Hin|].
  simpl. destruct (decide (k = x)) as [<-|Hne].
  - assert (Hown : JsObject.own (rejectOne st o k) !! k = Some (rejectedRow k a)).
    { rewrite (rejectOne_rejects st o k a) by done. apply lookup_insert_eq. }
    rewrite reject_fold_reviewed; rewrite Hown; [done|exact I].
  - apply elem_of_cons in Hin as [?|Hin]; [done|].
    apply IH; [done| |]; by rewrite rejectOne_other.
Qed.

(** After the loop every listed identifier is reviewed, or has no album, or
    is [__proto__] without own entry. *)
Lemma reject_fold_settled st ids o x :
  x ∈ ids →
  isReviewed (JsObject.own (foldl (rejectOne st) o ids) !! x) ∨
  findAlbum x (albums st) = None ∨
  (x = "__proto__" ∧ JsObject.own (foldl (rejectOne st) o ids) !! x = None).
Proof.
  intros Hin. destruct (isReviewed (JsObject.own o !! x)) eqn:Hrev.
  - left. rewrite reject_fold_reviewed; by rewrite Hrev.
  - destruct (findAlbum x (albums st)) as [a|] eqn:Ha; [|by right; left].
    destruct (decide (x = "__proto__" ∧ JsObject.own o !! x = None)) as [[-> Hnone]|Hx].
    + right. right. split; [done|]. by apply reject_fold_proto.
    + left. rewrite (reject_fold_rejects st ids o x a); [exact I|done| | |done].
      * rewrite Hrev. intros [].
      * destruct (decide (x = "__proto__")) as [->|?]; [right|by left].
        destruct (JsObject.own o !! "__proto__") eqn:E; [eauto|]. by destruct Hx.
Qed.

Lemma reject_fold_fixed st ids o :
  (∀ x, x ∈ ids →
        isReviewed (JsObject.own o !! x) ∨ findAlbum x (albums st) = None ∨
        (x = "__proto__" ∧ JsObject.own o !! x = None)) →
  JsObject.own (foldl (rejectOne st) o ids) = JsObject.own o.
Proof.
  revert o. induction ids as [|x ids IH]; intros o Hfix; simpl; [done|].
  assert (Hstep : JsObject.own (rejectOne st o x) = JsObject.own o).
  { unfold rejectOne, getAllAlbums.
    destruct (isReviewed (JsObject.rowAt o x)) eqn:Hrow; [done|].
    destruct (findAlbum x (albums st)) as [a|] eqn:Ha; [|done].
    rewrite own_assign.
    pose proof (Hfix x ltac:(left)) as [Hrev|[Hnone|[Hx Hnone]]].
    - destruct (JsObject.own o !! x) as [s|] eqn:Hs; [|done].
      rewrite (rowAt_own o x s Hs) in Hrow. by rewrite Hrow in Hrev.
    - congruence.
    - rewrite Hx in *. by apply set_proto. }
  rewrite IH; [done|]. intros y Hy. rewrite Hstep. apply Hfix. by right.
Qed.

(** C6, evaluated.  The catalog [protoCatalog], the store after importing
    one row of identifier [__proto__], has one album and no status row.
    Rejecting that album in a batch stores no row: the assignment
    [allStatus[albumId] = ...] sets the prototype of the object, and the
    ReviewStatus map written back is the one read. *)
Theorem batch_reject_misses_proto :
  run [ImportBatch t0 [albumProto]] = protoCatalog ∧
  findAlbum "__proto__" (albums protoCatalog) = Some albumProto ∧
  ¬ reviewedId protoCatalog "__proto__" ∧
  review_status (batchUpdateReviewStatus ["__proto__"] protoCatalog) !! "__proto__"
  = None ∧
  batchUpdateReviewStatus ["__proto__"] protoCatalog = protoCatalog.
Proof. vm_compute. split_and!; try reflexivity. intros []. Qed.

(** X25. What a batch reject does in general.  Rejecting a list of
    identifiers twice leaves the ReviewStatus map of rejecting it once; a row
    that is ['已抽卡'] is never changed; a listed identifier that is not
    ['已抽卡'] and has an album gets the row with status ['已抽卡'],
    [reviewProgress = 0], no selected index and the link ['抽卡不通过'], with
    the names of that album, provided the identifier is not [__proto__] (or
    the map has an entry of that name); under [__proto__] a map without such
    an entry gets none; an identifier without album, and one that is not
    listed, keep what they had. *)
Theorem batch_reject_effect ids st :
  let st1 := batchUpdateReviewStatus ids st in
  review_status (batchUpdateReviewStatus ids st1) = review_status st1 ∧
  (∀ id, reviewedId st id → review_status st1 !! id = review_status st !! id) ∧
  (∀ id a, id ∈ ids → ¬ reviewedId st id → findAlbum id (albums st) = Some a →
     id ≠ "__proto__" ∨ is_Some (review_status st !! id) →
     review_status st1 !! id
     = Some (mkStatus id (albumName a) (bookName a) (category a)
                      0 Reviewed None (Some "抽卡不通过"))) ∧
  (review_status st !! "__proto__" = None →
   review_status st1 !! "__proto__" = None) ∧
  (∀ id, id ∉ albumIdsOf st → review_status st1 !! id = review_status st !! id) ∧
  (∀ id, id ∉ ids → review_status st1 !! id = review_status st !! id) ∧
  albums st1 = albums st ∧ album_meta st1 = album_meta st.
Proof.
  intros st1. subst st1.
  unfold batchUpdateReviewStatus, saveReviewStatus, getAllReviewStatus, reviewedId.
  cbn [albums review_status album_meta].
  split_and!; try done.
  - set (S1 := JsObject.own
                 (foldl (rejectOne st) (JsObject.parsed (review_status st)) ids)).
    replace (foldl (rejectOne (mkStore (albums st) S1 (album_meta st)))
                   (JsObject.parsed S1) ids)
      with (foldl (rejectOne st) (JsObject.parsed S1) ids) by done.
    rewrite reject_fold_fixed; [done|]. intros x Hx.
    apply (reject_fold_settled st ids (JsObject.parsed (review_status st)) x Hx).
  - intros id Hrev. by apply reject_fold_reviewed.
  - intros id a Hin Hrev Ha Hid. by apply reject_fold_rejects.
  - intros Hnone. by apply reject_fold_proto.
  - intros id Hout. apply reject_fold_no_album. by apply findAlbum_None.
  - intros id Hout. by apply reject_fold_not_listed.
Qed.

(** On [catalogABCReviewedB]: the reviewed row of B stays, A is rejected, the
    unknown Z and the unlisted C get no row. *)
Lemma batch_reject_effect_witness :
  let st1 := batchUpdateReviewStatus ["A"; "B"; "Z"] catalogABCReviewedB in
  review_status st1 !! "B" = Some (accepted albumB) ∧
  review_status st1 !! "A"
  = Some (mkStatus "A" "Album A" "Book" "fantasy" 0 Reviewed None (Some "抽卡不通过")) ∧
  review_status st1 !! "Z" = None ∧
  review_status st1 !! "C" = None.
Proof.
  intros st1.
  destruct (batch_reject_effect ["A"; "B"; "Z"] catalogABCReviewedB)
    as (_ & Hkeep & Hrej & _ & Hnoalbum & Hnot & _).
  fold st1 in Hkeep, Hrej, Hnoalbum, Hnot. split_and!.
  - rewrite Hkeep; [reflexivity|exact I].
  - apply (Hrej "A" albumA); [left|intros []|reflexivity|by left].
  - rewrite Hnoalbum; [reflexivity|]. by apply findAlbum_None.
  - rewrite Hnot; [reflexivity|]. by apply (bool_decide_unpack _).
Defined.
End BatchReject.

(** ** Deletion *)

Section Deletion.
Import Storage Spec Repository Examples.

Lemma lookup_filter_notin {A : Type} (ids : gset string) (m : gmap string A) k :
  filter (λ kv : string * A, kv.1 ∉ ids) m !! k
  = if decide (k ∈ ids) then None else m !! k.
Proof.
  rewrite map_lookup_filter. destruct (m !! k) as [x|]; simpl.
  - case_guard; case_decide; simpl in *; tauto.
  - by case_decide.
Qed.

Lemma size_list_to_set_remove_dups (l : list string) :
  size (list_to_set l : gset string) = length (remove_dups l).
Proof.
  rewrite <- (size_list_to_set (C := gset string)) by apply NoDup_remove_dups.
  f_equal. apply set_eq. intros x.
  by rewrite !elem_of_list_to_set, elem_of_remove_dups.
Qed.

Lemma list_to_set_empty_inv (l : list string) :
  size (list_to_set l : gset string) = 0%nat → l = [].
Proof.
  rewrite size_list_to_set_remove_dups. destruct l as [|x l]; [done|].
  intros Hlen. apply length_zero_iff_nil in Hlen.
  assert (Hx : x ∈ remove_dups (x :: l)) by (apply elem_of_remove_dups; left).
  rewrite Hlen in Hx. by apply elem_of_nil in Hx.
Qed.

(** The store [deleteAlbums] leaves, entry by entry. *)
Lemma deleteAlbums_store ids st :
  let st' := (deleteAlbums ids st).1 in
  albums st' = filter (λ a, albumId a ∉ ids) (albums st) ∧
  (∀ k, review_status st' !! k
        = if decide (k ∈ ids) then None else review_status st !! k) ∧
  (∀ k, album_meta st' !! k
        = if decide (k ∈ ids) then None else album_meta st !! k).
Proof.
  intros st'. subst st'. unfold deleteAlbums.
  destruct (decide (size (list_to_set ids : gset string) = 0%nat)) as [Hz|Hnz].
  - apply list_to_set_empty_inv in Hz as ->. cbn [fst].
    split_and!.
    + symmetry. apply filter_all. intros a _. apply not_elem_of_nil.
    + intros k. rewrite decide_False; [done|apply not_elem_of_nil].
    + intros k. rewrite decide_False; [done|apply not_elem_of_nil].
  - unfold saveAlbumMetaMap, saveReviewStatus, saveAlbums, getAllAlbums,
      getAllReviewStatus, getAlbumMetaMap.
    cbn [fst albums review_status album_meta].
    split_and!.
    + apply list_filter_iff. intros a. by rewrite elem_of_list_to_set.
    + intros k. rewrite lookup_filter_notin.
      destruct (decide (k ∈ ids)) as [Hin|Hout].
      * rewrite decide_True; [done|]. by apply elem_of_list_to_set.
      * rewrite decide_False; [done|]. by rewrite elem_of_list_to_set.
    + intros k. rewrite lookup_filter_notin.
      destruct (decide (k ∈ ids)) as [Hin|Hout].
      * rewrite decide_True; [done|]. by apply elem_of_list_to_set.
      * rewrite decide_False; [done|]. by rewrite elem_of_list_to_set.
Qed.

Lemma deleteAlbums_count ids st :
  deleted (deleteAlbums ids st).2 = Z.of_nat (length (remove_dups ids)).
Proof.
  unfold deleteAlbums.
  destruct (decide (size (list_to_set ids : gset string) = 0%nat)) as [Hz|Hnz].
  - by apply list_to_set_empty_inv in Hz as ->.
  - cbn [snd deleted]. by rewrite size_list_to_set_remove_dups.
Qed.

(** C7. [deleteAlbums] removes every requested identifier from the three
    collections, reports the number of distinct requested identifiers
    whether or not they were stored, keeps the other albums in order and
    the other map entries as they were, and on the empty list returns
    [deleted = 0] without changing the store. *)
Theorem delete_removes_requested ids st :
  let r := deleteAlbums ids st in
  deleted r.2 = Z.of_nat (length (remove_dups ids)) ∧
  (∀ id, id ∈ ids →
     (id ∉ albumIdsOf r.1) ∧
     review_status r.1 !! id = None ∧
     album_meta r.1 !! id = None) ∧
  albums r.1 = filter (λ a, albumId a ∉ ids) (albums st) ∧
  (∀ id, id ∉ ids →
     review_status r.1 !! id = review_status st !! id ∧
     album_meta r.1 !! id = album_meta st !! id) ∧
  (ids = [] → r = (st, mkDeleteResult 0)).
Proof.
  intros r.
  destruct (deleteAlbums_store ids st) as (Hal & Hs & Hm). fold r in Hal, Hs, Hm.
  split_and!.
  - apply deleteAlbums_count.
  - intros id Hin. rewrite Hs, Hm, !decide_True by done. split_and!; try done.
    unfold albumIdsOf. rewrite Hal.
    intros (a & -> & Ha)%list_elem_of_fmap.
    by apply list_elem_of_filter in Ha as [Hout _].
  - done.
  - intros id Hout. by rewrite Hs, Hm, !decide_False by done.
  - intros ->. done.
Qed.

(** On [catalogABCReviewedB]: a request that names B twice and the unknown Z
    counts two identifiers and removes B everywhere. *)
Lemma delete_removes_requested_witness :
  let r := deleteAlbums ["B"; "Z"; "B"] catalogABCReviewedB in
  deleted r.2 = 2 ∧
  ("B" ∉ albumIdsOf r.1) ∧
  review_status r.1 !! "B" = None ∧
  album_meta r.1 !! "B" = None ∧
  album_meta r.1 !! "A" = Some (mkMeta "A" t0).
Proof.
  intros r.
  destruct (delete_removes_requested ["B"; "Z"; "B"] catalogABCReviewedB)
    as (Hd & Hgone & _ & Hkeep & _).
  fold r in Hd, Hgone, Hkeep.
  destruct (Hgone "B") as (HB1 & HB2 & HB3); [left|].
  destruct (Hkeep "A") as (_ & HA); [by apply (bool_decide_unpack _)|].
  split_and!; [by rewrite Hd|done|done|done|by rewrite HA].
Defined.
End Deletion.

(** ** The invariant across the three collections *)

Section Invariant.
Import Storage Spec Repository Examples.

Lemma consistent_empty : consistent emptyStore.
Proof.
  split; intros id [x Hx]; unfold emptyStore in Hx;
    cbn [review_status album_meta] in Hx; by rewrite lookup_empty in Hx.
Qed.

Lemma consistent_import nowIso newAlbums st :
  consistent (importAlbums nowIso newAlbums st).1.
Proof.
  destruct (importAlbums_shape nowIso newAlbums st) as (_ & Hst & Hmeta & _).
  split; [|done]. intros id. rewrite Hst. case_decide; [done|by intros [? ?]].
Qed.

Lemma consistent_update id status st :
  consistent st → consistent (updateAlbumReviewStatus id status st).1.
Proof.
  intros [Hs Hm]. unfold updateAlbumReviewStatus, getAllAlbums, getAllReviewStatus.
  destruct (findAlbum id (albums st)) as [a|] eqn:Ha; [|done].
  apply findAlbum_Some in Ha as [Hid Hin].
  split; [|done]. intros k. cbn [fst saveReviewStatus review_status].
  destruct (decide (k = id)) as [->|Hne].
  - intros _. unfold albumIdsOf. cbn [albums]. rewrite <- Hid.
    by apply list_elem_of_fmap_2.
  - rewrite own_assign, lookup_set_ne by done. apply Hs.
Qed.

Lemma reject_fold_keys st ids (o : JsObject.t AlbumReviewStatus) k :
  is_Some (JsObject.own (foldl (rejectOne st) o ids) !! k) →
  is_Some (JsObject.own o !! k) ∨ k ∈ albumIdsOf st.
Proof.
  revert o. induction ids as [|x ids IH]; intros o; simpl; [auto|].
  intros [Hk|Hk]%IH; [|by right].
  destruct (decide (k = x)) as [->|Hne].
  - unfold rejectOne, getAllAlbums in Hk.
    destruct (isReviewed (JsObject.rowAt o x)); [by left|].
    destruct (findAlbum x (albums st)) as [a|] eqn:Ha; [|by left].
    right. apply findAlbum_Some in Ha as [<- Hin].
    by apply list_elem_of_fmap_2.
  - rewrite rejectOne_other in Hk by done. by left.
Qed.

Lemma consistent_batch ids st :
  consistent st → consistent (batchUpdateReviewStatus ids st).
Proof.
  intros [Hs Hm]. split; [|done]. intros k Hk.
  apply reject_fold_keys in Hk as [Hk|Hk]; [by apply Hs|done].
Qed.

Lemma consistent_delete ids st :
  consistent st → consistent (deleteAlbums ids st).1.
Proof.
  intros [Hs Hm].
  destruct (deleteAlbums_store ids st) as (Hal & Hs' & Hm').
  assert (Hstay : ∀ k, k ∉ ids → k ∈ albumIdsOf st →
                       k ∈ albumIdsOf (deleteAlbums ids st).1).
  { intros k Hout (a & -> & Ha)%list_elem_of_fmap.
    unfold albumIdsOf. rewrite Hal. apply list_elem_of_fmap_2.
    by apply list_elem_of_filter. }
  split; intros k Hk.
  - rewrite Hs' in Hk. case_decide; [by destruct Hk|auto].
  - rewrite Hm' in Hk. case_decide; [by destruct Hk|auto].
Qed.

Lemma consistent_step st op : consistent st → consistent (step st op).
Proof.
  intros Hst. destruct op; simpl.
  - apply consistent_import.
  - by apply consistent_update.
  - by apply consistent_batch.
  - by apply consistent_delete.
Qed.

(** C4. Whatever sequence of imports, status updates, batch rejects and
    deletions is run from the empty store, every key of the ReviewStatus
    map and every key of the ImportMeta map is the identifier of a stored
    album. *)
Theorem reachable_store_consistent (ops : list Op) : consistent (run ops).
Proof.
  unfold run. generalize consistent_empty. generalize emptyStore.
  induction ops as [|op ops IH]; intros st Hst; simpl; [done|].
  apply IH. by apply consistent_step.
Qed.
End Invariant.

(** ** Navigation and progress *)

Section Navigator.
Import Storage Spec Repository ReviewPage Examples.

Context {A : Type} (P : A → Prop) `{!∀ x, Decision (P x)}.

Lemma findIndex_none (l : list A) :
  (∀ x, x ∈ l → ¬ P x) → findIndex P l = -1.
Proof.
  intros Hnone. unfold findIndex.
  destruct (list_find P l) as [[i x]|] eqn:E; [|done].
  apply list_find_Some in E as (Hi & Hx & _).
  destruct (Hnone x); [|done]. by apply list_elem_of_lookup_2 in Hi.
Qed.

Lemma findIndex_first (l1 l2 : list A) (x : A) :
  (∀ y, y ∈ l1 → ¬ P y) → P x →
  findIndex P (l1 ++ x :: l2) = Z.of_nat (length l1).
Proof.
  intros Hnone Hx. unfold findIndex.
  rewrite (proj2 (list_find_Some P (l1 ++ x :: l2) (length l1) x)); [done|].
  split_and!; [|done|].
  - by rewrite lookup_app_r, Nat.sub_diag.
  - intros j y Hj Hlt. rewrite lookup_app_l in Hj by done.
    apply Hnone. by apply list_elem_of_lookup_2 in Hj.
Qed.

Lemma findIndex_lower (l : list A) : -1 ≤ findIndex P l.
Proof. unfold findIndex. destruct (list_find P l) as [[i x]|]; lia. Qed.
End Navigator.

Section NextUnreviewed.
Import Storage Spec Repository ReviewPage Examples.

Lemma no_album_with_id id (l : list Album) :
  id ∉ albumId <$> l → ∀ a, a ∈ l → albumId a ≠ id.
Proof.
  intros Hout a Ha Heq. apply Hout. rewrite <- Heq. by apply list_elem_of_fmap_2.
Qed.

(** The cases of [getNextUnreviewedAlbumId] on the list [u] that the function
    filters out of the albums. *)
Lemma getNextUnreviewedAlbumId_cases current st :
  let u := unreviewed st in
  (∀ l1 a b l2,
     u = l1 ++ a :: b :: l2 → albumId a = current → current ∉ albumId <$> l1 →
     getNextUnreviewedAlbumId current st = Some (albumId b)) ∧
  (current ∉ albumId <$> u →
     getNextUnreviewedAlbumId current st = albumId <$> head u) ∧
  (∀ l1 a,
     u = l1 ++ [a] → albumId a = current → current ∉ albumId <$> l1 →
     getNextUnreviewedAlbumId current st = None) ∧
  (u = [] → getNextUnreviewedAlbumId current st = None).
Proof.
  intros u. unfold getNextUnreviewedAlbumId. fold u. split_and!.
  - intros l1 a b l2 Hu Ha Hl1. rewrite Hu.
    rewrite decide_False by (rewrite length_app; simpl; lia).
    rewrite findIndex_first by (by apply no_album_with_id || done).
    rewrite decide_False by lia.
    rewrite decide_False by (rewrite length_app; simpl; lia).
    replace (Z.to_nat (Z.of_nat (length l1) + 1)) with (length l1 + 1)%nat by lia.
    rewrite lookup_app_r by lia.
    by replace (length l1 + 1 - length l1)%nat with 1%nat by lia.
  - intros Hout. rewrite findIndex_none by by apply no_album_with_id.
    destruct u as [|a u']; [done|].
    rewrite decide_False by done. by rewrite decide_True.
  - intros l1 a Hu Ha Hl1. rewrite Hu.
    rewrite decide_False by (rewrite length_app; simpl; lia).
    rewrite findIndex_first by (by apply no_album_with_id || done).
    rewrite decide_False by lia.
    rewrite decide_True; [done|]. rewrite length_app. simpl. lia.
  - intros ->. done.
Qed.

(** C8, evaluated.  [shadowCatalog] is the store after importing the rows
    A, toString and B: no album has a status row, so the unreviewed
    subsequence of the specification is A, toString, B.  The page answers B
    for the album after A, and A for the album after toString: its filter
    reads [allStatus[a.albumId]], finds the function every object inherits
    under the name toString, and leaves that album out. *)
Theorem next_unreviewed_skips_inherited_name :
  run [ImportBatch t0 [albumA; albumToString; albumB]] = shadowCatalog ∧
  unreviewedSeq shadowCatalog = [albumA; albumToString; albumB] ∧
  unreviewed shadowCatalog = [albumA; albumB] ∧
  getNextUnreviewedAlbumId "A" shadowCatalog = Some "B" ∧
  getNextUnreviewedAlbumId "toString" shadowCatalog = Some "A".
Proof. vm_compute. split_and!; reflexivity. Qed.

(** X26. Where no album without status row has an identifier that is an
    inherited name, [getNextUnreviewedAlbumId] walks the unreviewed
    subsequence of the specification, the albums in stored order whose status
    row is missing or ['未抽卡']: it returns the element after the current
    one, the first element when the current identifier is not in the
    subsequence, and null after the last element and on the empty
    subsequence. *)
Theorem next_unreviewed_spec current st :
  (∀ a, a ∈ albums st → ¬ shadowedId st (albumId a)) →
  let u := unreviewedSeq st in
  (∀ l1 a b l2,
     u = l1 ++ a :: b :: l2 → albumId a = current → current ∉ albumId <$> l1 →
     getNextUnreviewedAlbumId current st = Some (albumId b)) ∧
  (current ∉ albumId <$> u →
     getNextUnreviewedAlbumId current st = albumId <$> head u) ∧
  (∀ l1 a,
     u = l1 ++ [a] → albumId a = current → current ∉ albumId <$> l1 →
     getNextUnreviewedAlbumId current st = None) ∧
  (u = [] → getNextUnreviewedAlbumId current st = None).
Proof.
  intros Hsh u. subst u. rewrite <- (unreviewed_unshadowed st Hsh).
  apply getNextUnreviewedAlbumId_cases.
Qed.

(** On [catalogABCReviewedB] the subsequence is A, C: the reviewed B is
    filtered out, C follows A, nothing follows C, and from B, which is not in
    the subsequence, the page goes to A. *)
Lemma next_unreviewed_spec_witness :
  unreviewedSeq catalogABCReviewedB = [albumA; albumC] ∧
  getNextUnreviewedAlbumId "A" catalogABCReviewedB = Some "C" ∧
  getNextUnreviewedAlbumId "B" catalogABCReviewedB = Some "A" ∧
  getNextUnreviewedAlbumId "C" catalogABCReviewedB = None ∧
  getNextUnreviewedAlbumId "A" onlyAReviewed = None.
Proof.
  assert (Hsh : ∀ a, a ∈ albums catalogABCReviewedB →
                     ¬ shadowedId catalogABCReviewedB (albumId a)).
  { apply Forall_forall. by apply (bool_decide_unpack _). }
  assert (Hsh1 : ∀ a, a ∈ albums onlyAReviewed → ¬ shadowedId onlyAReviewed (albumId a)).
  { apply Forall_forall. by apply (bool_decide_unpack _). }
  destruct (next_unreviewed_spec "A" catalogABCReviewedB Hsh) as (HA & _ & _ & _).
  destruct (next_unreviewed_spec "B" catalogABCReviewedB Hsh) as (_ & HB & _ & _).
  destruct (next_unreviewed_spec "C" catalogABCReviewedB Hsh) as (_ & _ & HC & _).
  destruct (next_unreviewed_spec "A" onlyAReviewed Hsh1) as (_ & _ & _ & HE).
  split_and!.
  - reflexivity.
  - apply (HA [] albumA albumC []); [reflexivity|reflexivity|apply not_elem_of_nil].
  - apply HB. by apply (bool_decide_unpack _).
  - apply (HC [albumA] albumC); [reflexivity|reflexivity|by apply (bool_decide_unpack _)].
  - by apply HE.
Defined.
End NextUnreviewed.

Section Progress.
Import Storage Spec Repository ReviewPage Examples.

Lemma unreviewedCount_bounds st :
  0 ≤ unreviewedCount st ≤ totalAlbumCount st.
Proof.
  unfold unreviewedCount, totalAlbumCount, unreviewed.
  pose proof (length_filter
    (λ a, isUnreviewed (JsObject.prop (getAllReviewStatus st) (albumId a)))
    (getAllAlbums st)).
  lia.
Qed.

(** The memo on arbitrary counters: the two early returns, and the clamp
    with its two guards. *)
Lemma overallProgressText_cases routeId T U P :
  overallProgressText routeId T U P
  = if negb (truthy routeId) then mkProgress 0 T
    else if decide (T ≤ 0) then mkProgress 0 0
    else mkProgress (clamp 0 T (Z.max 0 (T - U) + Z.max 0 P)) T.
Proof.
  unfold overallProgressText, clamp.
  destruct (truthy routeId); [simpl|done].
  destruct (Z.leb_spec T 0) as [HT|HT].
  - by rewrite decide_True.
  - rewrite decide_False by lia. f_equal.
    destruct (Z.ltb_spec 0 P), (Z.ltb_spec (Z.max 0 (T - U) + Z.max 0 P) 0),
      (Z.ltb_spec T (Z.max 0 (T - U) + Z.max 0 P)); lia.
Qed.

Lemma overallProgressText_clamp routeId T U P :
  truthy routeId → 0 ≤ U ≤ T → 0 ≤ P →
  overallProgressText routeId T U P = mkProgress (clamp 0 T (T - U + P)) T.
Proof.
  intros Htruthy HU HP. rewrite overallProgressText_cases.
  destruct (truthy routeId); [simpl|done].
  case_decide as HT.
  - assert (T = 0) as -> by lia. assert (U = 0) as -> by lia.
    unfold clamp. destruct (Z.ltb_spec (0 - 0 + P) 0); [done|].
    destruct (Z.ltb_spec 0 (0 - 0 + P)); [done|]. f_equal. lia.
  - f_equal. f_equal. lia.
Qed.

Lemma findIndex_position id (l : list Album) :
  findIndex (λ a, albumId a = id) l + 1 = position id l.
Proof.
  unfold findIndex. induction l as [|a l IH]; [done|].
  cbn [list_find position]. destruct (decide (albumId a = id)) as [Ha|Ha]; [done|].
  destruct (list_find (λ a0, albumId a0 = id) l) as [[i x]|]; simpl in *.
  - rewrite <- IH. rewrite decide_False by lia. lia.
  - rewrite <- IH. by rewrite decide_True by lia.
Qed.

Lemma currentIndex_position id st :
  currentIndex (Some id) st = position id (unreviewed st).
Proof.
  unfold currentIndex. rewrite <- findIndex_position. f_equal.
  unfold findIndex.
  assert (Hfind : ∀ l : list Album,
    list_find (λ a, Some (albumId a) = Some id) l
    = list_find (λ a, albumId a = id) l).
  { induction l as [|a l IH]; [done|]. cbn [list_find].
    destruct (decide (albumId a = id)) as [Ha|Ha].
    - by rewrite decide_True by by rewrite Ha.
    - rewrite decide_False by congruence. by rewrite IH. }
  by rewrite Hfind.
Qed.

Lemma position_bounds id (l : list Album) : 0 ≤ position id l ≤ Z.of_nat (length l).
Proof.
  induction l as [|a l IH]; simpl; [lia|].
  destruct (decide (albumId a = id)); [lia|]. case_decide; lia.
Qed.

(** C9, evaluated.  On [shadowCatalog], the store after importing the rows
    A, toString and B, no album has a status row: [T = 3], [U = 3], and A is
    the first of the unreviewed subsequence, [P = 1], so the count of the
    specification is [clamp(0, 3, (3 − 3) + 1) = 1].  The page shows 2/3:
    its filter leaves the album toString out of the unreviewed albums, which
    makes it one of the reviewed ones. *)
Theorem progress_counts_inherited_name_as_reviewed :
  run [ImportBatch t0 [albumA; albumToString; albumB]] = shadowCatalog ∧
  Z.of_nat (length (albums shadowCatalog)) = 3 ∧
  Z.of_nat (length (unreviewedSeq shadowCatalog)) = 3 ∧
  position "A" (unreviewedSeq shadowCatalog) = 1 ∧
  displayedCount shadowCatalog "A" = 1 ∧
  unreviewedCount shadowCatalog = 2 ∧
  progressOf (Some "A") shadowCatalog = mkProgress 2 3.
Proof. vm_compute. split_and!; reflexivity. Qed.

(** X27. The progress text.  On arbitrary counters [T], [U] and [P] the memo
    [overallProgressText] shows [0/T] without current album, [0/0] when
    [T ≤ 0], and otherwise [clamp(0, T, max(0, T − U) + max(0, P))] out of
    [T], which is [clamp(0, T, (T − U) + P)] when [0 ≤ U ≤ T] and [0 ≤ P];
    the count shown is never negative and never more than [T].  On a store
    where no album without status row has an identifier that is an inherited
    name, the page shows for the current album, with [T] the number of
    albums, [U] the length of the unreviewed subsequence of the specification
    and [P] the position of the album in it, [clamp(0, T, (T − U) + P)] out of
    [T]. *)
Theorem progress_spec :
  (∀ routeId T U P,
     ¬ truthy routeId → overallProgressText routeId T U P = mkProgress 0 T) ∧
  (∀ routeId T U P,
     truthy routeId → T ≤ 0 → overallProgressText routeId T U P = mkProgress 0 0) ∧
  (∀ routeId T U P,
     truthy routeId → 0 < T →
     overallProgressText routeId T U P
     = mkProgress (clamp 0 T (Z.max 0 (T - U) + Z.max 0 P)) T) ∧
  (∀ routeId T U P,
     truthy routeId → 0 ≤ U ≤ T → 0 ≤ P →
     overallProgressText routeId T U P = mkProgress (clamp 0 T (T - U + P)) T) ∧
  (∀ routeId T U P,
     0 ≤ T → 0 ≤ shown (overallProgressText routeId T U P) ≤ T) ∧
  (∀ id st,
     id ≠ "" →
     (∀ a, a ∈ albums st → ¬ shadowedId st (albumId a)) →
     progressOf (Some id) st
     = mkProgress (displayedCount st id) (Z.of_nat (length (albums st)))).
Proof.
  split_and!.
  - intros routeId T U P Hr. rewrite overallProgressText_cases.
    by destruct (truthy routeId).
  - intros routeId T U P Hr HT. rewrite overallProgressText_cases.
    destruct (truthy routeId); [simpl|done]. by rewrite decide_True.
  - intros routeId T U P Hr HT. rewrite overallProgressText_cases.
    destruct (truthy routeId); [simpl|done]. by rewrite decide_False by lia.
  - intros routeId T U P. apply overallProgressText_clamp.
  - intros routeId T U P HT. rewrite overallProgressText_cases.
    destruct (truthy routeId); simpl; [|lia].
    case_decide; simpl; [lia|]. unfold clamp.
    destruct (Z.ltb_spec (Z.max 0 (T - U) + Z.max 0 P) 0); [lia|].
    destruct (Z.ltb_spec T (Z.max 0 (T - U) + Z.max 0 P)); lia.
  - intros id st Hid Hsh. unfold progressOf, displayedCount.
    rewrite currentIndex_position. unfold unreviewedCount, totalAlbumCount, getAllAlbums.
    rewrite (unreviewed_unshadowed st Hsh).
    apply overallProgressText_clamp.
    + simpl. by rewrite bool_decide_eq_false_2.
    + pose proof (length_filter (λ a, unreviewedId st (albumId a)) (albums st)).
      unfold unreviewedSeq. lia.
    + apply position_bounds.
Qed.

(** With five albums, all reviewed, the count stays at 5 whatever the
    position; without album the text is 0/0; on [catalogABCReviewedB], one
    album of three is reviewed: the last unreviewed album shows 3/3, the
    reviewed one 1/3. *)
Lemma progress_spec_witness :
  overallProgressText (Some "A") 5 0 3 = mkProgress 5 5 ∧
  overallProgressText (Some "A") 0 4 2 = mkProgress 0 0 ∧
  overallProgressText None 5 0 3 = mkProgress 0 5 ∧
  overallProgressText (Some "A") 5 7 (-2) = mkProgress 0 5 ∧
  progressOf (Some "C") catalogABCReviewedB = mkProgress 3 3 ∧
  progressOf (Some "B") catalogABCReviewedB = mkProgress 1 3.
Proof.
  destruct progress_spec as (Hnone & Hzero & Hguard & Hclamp & _ & Hstore).
  assert (Hsh : ∀ a, a ∈ albums catalogABCReviewedB →
                     ¬ shadowedId catalogABCReviewedB (albumId a)).
  { apply Forall_forall. by apply (bool_decide_unpack _). }
  split_and!.
  - rewrite Hclamp; [reflexivity|exact I|lia|lia].
  - rewrite Hzero; [reflexivity|exact I|lia].
  - rewrite Hnone; [reflexivity|intros []].
  - rewrite Hguard; [reflexivity|exact I|lia].
  - rewrite Hstore; [reflexivity|discriminate|exact Hsh].
  - rewrite Hstore; [reflexivity|discriminate|exact Hsh].
Defined.
End Progress.

(** ** The import properties on the sample data *)

Section ImportOnSamples.
Import Storage Spec Repository Examples.

(** Importing a renamed A and A into [catalogABCReviewedB], where B is
    reviewed: C, not reviewed and not in the batch, is dropped with its
    metadata, B stays, and A has the row that came last. *)
Lemma import_drops_unreviewed_not_incoming_witness :
  let st' := (importAlbums t1 [albumA2; albumA] catalogABCReviewedB).1 in
  "C" ∈ albumIdsOf catalogABCReviewedB ∧
  is_Some (album_meta catalogABCReviewedB !! "C") ∧
  ("C" ∉ albumIdsOf st') ∧
  review_status st' !! "C" = None ∧
  album_meta st' !! "C" = None ∧
  "A" ∈ albumIdsOf st' ∧
  "B" ∈ albumIdsOf st' ∧
  findAlbum "A" (albums st') = Some albumA ∧
  album_meta st' !! "A" = Some (mkMeta "A" t1).
Proof.
  intros st'.
  destruct (import_drops_unreviewed_not_incoming t1 [albumA2; albumA]
              catalogABCReviewedB) as (Hdrop & Hids & _ & Hrow).
  fold st' in Hdrop, Hids, Hrow.
  destruct (Hdrop "C") as (HC1 & HC2 & HC3);
    [exact I|by apply (bool_decide_unpack _)|].
  destruct (Hrow "A" albumA) as (HA1 & _ & HA3); [intros []|reflexivity|].
  split_and!; [by apply (bool_decide_unpack _)|by eexists|done|done|done| | |done|].
  - apply Hids. right. by apply (bool_decide_unpack _).
  - apply Hids. left. split; [by apply (bool_decide_unpack _)|exact I].
  - by apply HA3.
Defined.

(** Two rows for the identifier A. *)
Lemma import_same_id_twice_witness :
  importAlbums t1 [albumA; albumA2] emptyStore
  = (mkStore [albumA2] ∅ {["A" := mkMeta "A" t1]}, mkImportResult 2 1).
Proof. apply (proj1 import_same_id_twice t1 albumA albumA2). reflexivity. Defined.
End ImportOnSamples.

(** * Further properties of the code *)

(** ** Status updates, continued *)

Section UpdateMore.
Import Storage Spec Repository ReviewPage Examples.

Lemma nullish_idem {A : Type} (a b : option A) : nullish a (nullish a b) = nullish a b.
Proof. by destruct a. Qed.

(** The store a status update leaves when the album exists. *)
Lemma updateAlbumReviewStatus_store id status st a :
  findAlbum id (albums st) = Some a →
  ∃ row,
    updateAlbumReviewStatus id status st
    = (saveReviewStatus (JsObject.set id row (review_status st)) st, Returned) ∧
    status_albumId row = id ∧
    status_albumName row = albumName a ∧
    status_bookName row = bookName a ∧
    status_category row = category a ∧
    reviewProgress row
    = default 0 (nullish (p_reviewProgress status)
                         (reviewProgress <$> review_status st !! id)) ∧
    reviewStatus row
    = default Unreviewed (nullish (p_reviewStatus status)
                                  (reviewStatus <$> review_status st !! id)) ∧
    selectedImageIndex row
    = nullish (p_selectedImageIndex status)
              (review_status st !! id ≫= selectedImageIndex) ∧
    selectedImageLink row
    = nullish (p_selectedImageLink status)
              (review_status st !! id ≫= selectedImageLink).
Proof.
  intros Ha. unfold updateAlbumReviewStatus, getAllAlbums, getAllReviewStatus.
  rewrite Ha. eexists. rewrite own_assign. cbn [JsObject.parsed JsObject.own].
  split; [reflexivity|]. by split_and!.
Qed.

(** X1. Writing the same partial status twice is writing it once. *)
Theorem update_twice id status st :
  updateAlbumReviewStatus id status (updateAlbumReviewStatus id status st).1
  = updateAlbumReviewStatus id status st.
Proof.
  unfold updateAlbumReviewStatus, getAllAlbums, getAllReviewStatus.
  destruct (findAlbum id (albums st)) as [a|] eqn:Ha; cbn [fst]; [|by rewrite Ha].
  cbn [saveReviewStatus albums review_status album_meta]. rewrite Ha.
  rewrite !own_assign. cbn [JsObject.parsed JsObject.own].
  destruct (decide (id = "__proto__" ∧ review_status st !! id = None)) as [[-> Hnone]|Hid].
  - by rewrite !(set_proto _ (review_status st)) by done.
  - assert (Hk : id ≠ "__proto__" ∨ is_Some (review_status st !! id)).
    { destruct (decide (id = "__proto__")) as [->|?]; [right|by left].
      destruct (review_status st !! "__proto__") eqn:E; [eauto|]. by destruct Hid. }
    rewrite (set_insert id _ (review_status st)) by done.
    rewrite lookup_insert_eq.
    rewrite set_insert by (right; rewrite lookup_insert_eq; eauto).
    rewrite insert_insert_eq.
    cbn [fmap option_fmap option_map mbind option_bind
      reviewProgress reviewStatus selectedImageIndex selectedImageLink].
    rewrite !nullish_idem.
    destruct (p_reviewProgress status), (p_reviewStatus status); reflexivity.
Qed.

(** X2. A call that returns rewrites one row only: the albums, the import
    metadata and what is read under the other identifiers are as before.
    Under an identifier other than [__proto__] the row written, as
    [getAlbumReviewStatus] reads it back, carries the identifier and the
    names of the stored album, whatever names the old row had, with the
    status and the progress of the partial status.  Under [__proto__], when
    the map has no entry of that name, nothing is stored and the store is as
    before. *)
Theorem update_touches_one_row id status st a :
  findAlbum id (albums st) = Some a →
  let st' := (updateAlbumReviewStatus id status st).1 in
  albums st' = albums st ∧
  album_meta st' = album_meta st ∧
  (∀ id', id' ≠ id → getAlbumReviewStatus id' st' = getAlbumReviewStatus id' st) ∧
  (id ≠ "__proto__" →
   ∃ row, getAlbumReviewStatus id st' = JsObject.Row row ∧
          review_status st' !! id = Some row ∧
          status_albumId row = id ∧
          status_albumName row = albumName a ∧
          status_bookName row = bookName a ∧
          status_category row = category a ∧
          (∀ x, p_reviewStatus status = Some x → reviewStatus row = x) ∧
          (∀ x, p_reviewProgress status = Some x → reviewProgress row = x)) ∧
  (id = "__proto__" → review_status st !! id = None →
   st' = st ∧ getAlbumReviewStatus id st' = JsObject.Inherited).
Proof.
  intros Ha st'. subst st'.
  destruct (updateAlbumReviewStatus_store id status st a Ha)
    as (row & -> & Hid & Hname & Hbook & Hcat & Hprog & Hstat & _).
  unfold getAlbumReviewStatus, getAllReviewStatus.
  cbn [fst saveReviewStatus albums review_status album_meta].
  split_and!; [done|done| | |].
  - intros id' Hne. unfold JsObject.prop. by rewrite lookup_set_ne.
  - intros Hne. exists row.
    assert (Hrow : JsObject.set id row (review_status st) !! id = Some row).
    { rewrite set_insert by by left. apply lookup_insert_eq. }
    split_and!; try done.
    + by apply prop_row.
    + intros x Hx. by rewrite Hstat, Hx.
    + intros x Hx. by rewrite Hprog, Hx.
  - intros -> Hnone. rewrite set_proto by done. split; [by destruct st|].
    unfold JsObject.prop. by rewrite Hnone.
Qed.

(** On [catalogABCReviewedB], rejecting B rewrites the row of B only; on
    [protoCatalog], rejecting the album stores nothing. *)
Lemma update_touches_one_row_witness :
  let st' := (updateAlbumReviewStatus "B" rejectPartial catalogABCReviewedB).1 in
  albums st' = albums catalogABCReviewedB ∧
  getAlbumReviewStatus "A" st' = JsObject.Undefined ∧
  (∃ row, review_status st' !! "B" = Some row ∧ reviewStatus row = Reviewed ∧
          reviewProgress row = 0) ∧
  (updateAlbumReviewStatus "__proto__" rejectPartial protoCatalog).1 = protoCatalog.
Proof.
  destruct (update_touches_one_row "B" rejectPartial catalogABCReviewedB albumB)
    as (Hal & _ & Hother & Hrow & _); [reflexivity|].
  destruct (update_touches_one_row "__proto__" rejectPartial protoCatalog albumProto)
    as (_ & _ & _ & _ & Hproto); [reflexivity|].
  split_and!; [exact Hal| | |].
  - rewrite Hother; [reflexivity|discriminate].
  - destruct Hrow as (row & _ & Hget & _ & _ & _ & _ & Hs & Hp); [discriminate|].
    exists row. split_and!; [exact Hget|by apply Hs|by apply Hp].
  - by apply Hproto.
Defined.

(** X3. A status update never removes a selection: a row that had a selected
    index, or a selected link, has one after any update that returns.  So the
    rejection of an album accepted before leaves the index of the image that
    had been accepted beside the link that says rejected. *)
Theorem update_keeps_selection id status st row :
  getAlbumReviewStatus id st = JsObject.Row row →
  id ∈ albumIdsOf st →
  ∃ row', getAlbumReviewStatus id (updateAlbumReviewStatus id status st).1
          = JsObject.Row row' ∧
    (is_Some (selectedImageIndex row) → is_Some (selectedImageIndex row')) ∧
    (is_Some (selectedImageLink row) → is_Some (selectedImageLink row')) ∧
    (p_selectedImageIndex status = None →
       selectedImageIndex row' = selectedImageIndex row).
Proof.
  intros Hrow Hin. apply findAlbum_is_Some in Hin as [a Ha].
  assert (Hown : review_status st !! id = Some row).
  { unfold getAlbumReviewStatus, getAllReviewStatus, JsObject.prop in Hrow.
    destruct (review_status st !! id); [by injection Hrow as ->|].
    by destruct (bool_decide _). }
  destruct (updateAlbumReviewStatus_store id status st a Ha)
    as (row' & -> & _ & _ & _ & _ & _ & _ & Hidx & Hlink).
  unfold getAlbumReviewStatus, getAllReviewStatus.
  cbn [fst saveReviewStatus review_status].
  exists row'. rewrite Hown in Hidx, Hlink. cbn [mbind option_bind] in Hidx, Hlink.
  split_and!.
  - apply prop_row. rewrite set_insert by (right; eauto). apply lookup_insert_eq.
  - intros Hsome. rewrite Hidx. by destruct (p_selectedImageIndex status).
  - intros Hsome. rewrite Hlink. by destruct (p_selectedImageLink status).
  - intros Hnone. by rewrite Hidx, Hnone.
Qed.

(** Accepting the first image of B and then rejecting B. *)
Lemma update_keeps_selection_witness :
  ∃ row', getAlbumReviewStatus "B"
            (updateAlbumReviewStatus "B" rejectPartial catalogABCReviewedB).1
          = JsObject.Row row' ∧
          selectedImageIndex row' = Some 1 ∧
          selectedImageLink row' = Some "抽卡不通过".
Proof.
  destruct (update_keeps_selection "B" rejectPartial catalogABCReviewedB (accepted albumB))
    as (row' & Hget & _ & _ & Hidx); [reflexivity|right; left|].
  exists row'. split; [exact Hget|]. split; [by apply Hidx|].
  vm_compute in Hget. by injection Hget as <-.
Defined.
End UpdateMore.

(** ** Import, continued *)

Section ImportRows.
Import Storage Spec Repository Examples.

(** X4. An incoming row for an identifier that is not reviewed lands: after
    the import the album of that identifier is the last incoming row that
    carries it, and its status row, if it had one, is kept as it was.  Its
    metadata says it was imported now, unless the identifier is [__proto__]:
    the assignment [metaToKeep[album.albumId] = ...] then stores nothing and
    the album has no metadata. *)
Theorem import_incoming_row nowIso newAlbums st id b :
  ¬ reviewedId st id →
  last (filter (λ a, albumId a = id) newAlbums) = Some b →
  let st' := (importAlbums nowIso newAlbums st).1 in
  findAlbum id (albums st') = Some b ∧
  album_meta st' !! id
  = (if decide (id = "__proto__") then None else Some (mkMeta id nowIso)) ∧
  review_status st' !! id = review_status st !! id.
Proof.
  intros Hrev Hlast st'.
  assert (Hin : id ∈ albumId <$> newAlbums).
  { apply last_Some_elem_of, list_elem_of_filter in Hlast as [<- Hb].
    by apply list_elem_of_fmap_2. }
  destruct (importAlbums_rows nowIso newAlbums st) as (_ & Hrow & Hmeta & Hproto & _).
  destruct (importAlbums_shape nowIso newAlbums st) as (Hids & Hst & _).
  fold st' in Hrow, Hmeta, Hproto, Hids, Hst. split_and!.
  - apply Hrow. by left.
  - case_decide as Hid; [|by apply Hmeta]. rewrite Hid in *. by apply Hproto.
  - rewrite Hst, decide_True; [done|]. apply Hids. by right.
Qed.

(** Importing a renamed A and a second row for it into [catalogABC]; and
    importing the album of identifier [__proto__] into the empty store. *)
Lemma import_incoming_row_witness :
  let st' := (importAlbums t1 [albumA2; albumB; albumA] catalogABC).1 in
  (findAlbum "A" (albums st') = Some albumA ∧
   album_meta st' !! "A" = Some (mkMeta "A" t1) ∧
   review_status st' !! "A" = None) ∧
  (importAlbums t0 [albumProto] emptyStore).1 = protoCatalog ∧
  album_meta (importAlbums t0 [albumProto] emptyStore).1 !! "__proto__" = None.
Proof.
  intros st'. split; [|split].
  - apply (import_incoming_row t1 [albumA2; albumB; albumA] catalogABC "A" albumA);
      [intros []|reflexivity].
  - reflexivity.
  - apply (import_incoming_row t0 [albumProto] emptyStore "__proto__" albumProto);
      [intros []|reflexivity].
Defined.

(** X5. A reviewed album that the batch does not name is kept as it is, with
    its status row and its metadata, when the stored identifiers are
    distinct. *)
Theorem import_keeps_reviewed_not_incoming nowIso newAlbums st id :
  NoDup (albumIdsOf st) →
  keptId st id →
  id ∉ albumId <$> newAlbums →
  let st' := (importAlbums nowIso newAlbums st).1 in
  findAlbum id (albums st') = findAlbum id (albums st) ∧
  is_Some (findAlbum id (albums st)) ∧
  review_status st' !! id = review_status st !! id ∧
  album_meta st' !! id = album_meta st !! id.
Proof.
  intros Hnd [Hin Hrev] Hout st'.
  destruct (importAlbums_rows nowIso newAlbums st) as (_ & Hrow & _ & Hmeta).
  destruct (importAlbums_shape nowIso newAlbums st) as (Hids & Hst & _).
  fold st' in Hrow, Hmeta, Hids, Hst.
  destruct (findAlbum_is_Some id (albums st) Hin) as [a Ha].
  pose proof (findAlbum_Some id (albums st) a Ha) as [Hid Hmem].
  rewrite Ha. split_and!; [|by eauto| |].
  - apply Hrow. right. split; [done|].
    rewrite last_filter_find by by apply NoDup_fmap_filter.
    rewrite <- Hid. apply findAlbum_unique; [by apply NoDup_fmap_filter|].
    apply list_elem_of_filter. split; [|done]. by rewrite Hid.
  - rewrite Hst, decide_True; [done|]. apply Hids. by left.
  - by apply Hmeta.
Qed.

(** Importing only A into [catalogABCReviewedB] keeps B. *)
Lemma import_keeps_reviewed_not_incoming_witness :
  let st' := (importAlbums t1 [albumA2] catalogABCReviewedB).1 in
  findAlbum "B" (albums st') = Some albumB ∧
  review_status st' !! "B" = Some (accepted albumB) ∧
  album_meta st' !! "B" = Some (mkMeta "B" t0).
Proof.
  destruct (import_keeps_reviewed_not_incoming t1 [albumA2] catalogABCReviewedB "B")
    as (Hal & _ & Hs & Hm).
  - by apply (bool_decide_unpack _).
  - split; [right; left|exact I].
  - by apply (bool_decide_unpack _).
  - split_and!; [exact Hal|exact Hs|exact Hm].
Defined.

(** X6. The counters of an import: [duplicates] is never negative and never
    more than [imported], which is the length of the batch. *)
Theorem import_counters nowIso newAlbums st :
  let r := (importAlbums nowIso newAlbums st).2 in
  imported r = Z.of_nat (length newAlbums) ∧ 0 ≤ duplicates r ≤ imported r.
Proof.
  destruct (importAlbums_shape nowIso newAlbums st) as (_ & _ & _ & Hi & Hd).
  intros r. fold r in Hi, Hd. rewrite Hd, Hi. split; [done|]. apply collisions_bounds.
Qed.

(** X7. A batch of distinct identifiers, none of them that of a reviewed album,
    is appended as it is after the reviewed albums, and nothing counts as a
    duplicate, although every unreviewed album it names is overwritten. *)
Theorem import_fresh_batch nowIso newAlbums st :
  NoDup (albumIdsOf st) →
  NoDup (albumId <$> newAlbums) →
  (∀ id, id ∈ albumId <$> newAlbums → ¬ keptId st id) →
  let r := importAlbums nowIso newAlbums st in
  albums r.1 = reviewedAlbums st ++ newAlbums ∧ duplicates r.2 = 0.
Proof.
  intros Hnd Hnew Hfresh r.
  destruct (importAlbums_shape nowIso newAlbums st) as (_ & _ & _ & _ & Hd).
  fold r in Hd. split.
  - subst r. unfold importAlbums, getAllAlbums, getAllReviewStatus, getAlbumMetaMap.
    pose proof (keepReviewed_fold (review_status st) (album_meta st) (albums st)) as H1.
    destruct (foldl _ ([], ∅) (albums st)) as [m0 mt0]. simpl in H1.
    destruct H1 as (_ & Hkeys0 & _ & Hvals). specialize (Hvals Hnd).
    pose proof (addIncoming_map nowIso newAlbums m0 mt0 0) as HM2.
    destruct (foldl _ (m0, mt0, 0) newAlbums) as [[m mt] d]. simpl in HM2.
    cbn [fst saveAlbumMetaMap saveReviewStatus saveAlbums albums].
    rewrite HM2, set_all_fresh; [|done|].
    + unfold JsMap.values in *. rewrite fmap_app, Hvals. f_equal.
      rewrite <- list_fmap_compose. apply list_fmap_id.
    + intros a Ha Hk. apply Hkeys0 in Hk.
      apply (Hfresh (albumId a)); [by apply list_elem_of_fmap_2|done].
  - rewrite Hd. apply collisions_fresh; [done|].
    intros a Ha. rewrite elem_of_list_to_set.
    intros (b & Hb & [Hrev Hin]%list_elem_of_filter)%list_elem_of_fmap.
    apply (Hfresh (albumId a)); [by apply list_elem_of_fmap_2|].
    split; [rewrite Hb; by apply list_elem_of_fmap_2|]. by rewrite Hb.
Qed.

(** Importing A (renamed) and C into [catalogABCReviewedB]. *)
Lemma import_fresh_batch_witness :
  let r := importAlbums t1 [albumC; albumA2] catalogABCReviewedB in
  albums r.1 = [albumB; albumC; albumA2] ∧ duplicates r.2 = 0.
Proof.
  apply (import_fresh_batch t1 [albumC; albumA2] catalogABCReviewedB).
  - by apply (bool_decide_unpack _).
  - by apply (bool_decide_unpack _).
  - intros id Hin [_ Hrev]. unfold reviewedId in Hrev. simpl in Hin.
    apply elem_of_cons in Hin as [->|Hin]; [exact Hrev|].
    apply list_elem_of_singleton in Hin as ->. exact Hrev.
Defined.
End ImportRows.

(** ** Invariants and compositions of the repository operations *)

Section RepositoryMore.
Import Storage Spec Repository ReviewPage OverviewPage Examples.

Lemma store_eq (a b : Store) :
  albums a = albums b → review_status a = review_status b →
  album_meta a = album_meta b → a = b.
Proof. destruct a, b. simpl. by intros -> -> ->. Qed.

Lemma distinct_step st op :
  NoDup (albumIdsOf st) → NoDup (albumIdsOf (step st op)).
Proof.
  intros Hnd. destruct op as [nowIso newAlbums|id status|ids|ids]; simpl.
  - apply importAlbums_rows.
  - unfold updateAlbumReviewStatus. by destruct (findAlbum _ _).
  - done.
  - destruct (deleteAlbums_store ids st) as (Hal & _).
    unfold albumIdsOf. rewrite Hal. by apply NoDup_fmap_filter.
Qed.

(** X8. In every store reached from the empty one by imports, status updates,
    batch rejects and deletions, no two albums have the same identifier. *)
Theorem reachable_ids_distinct (ops : list Op) : NoDup (albumIdsOf (run ops)).
Proof.
  unfold run. assert (Hnd : NoDup (albumIdsOf emptyStore)) by apply NoDup_nil_2.
  revert Hnd. generalize emptyStore.
  induction ops as [|op ops IH]; intros st Hst; simpl; [done|].
  apply IH. by apply distinct_step.
Qed.

(** X9. Deleting one list and then another leaves the store that deleting both
    at once leaves; so the order of two deletions does not matter, and a
    deletion done again changes nothing. *)
Theorem delete_composes ids1 ids2 st :
  (deleteAlbums ids2 (deleteAlbums ids1 st).1).1 = (deleteAlbums (ids1 ++ ids2) st).1 ∧
  (deleteAlbums ids2 (deleteAlbums ids1 st).1).1
  = (deleteAlbums ids1 (deleteAlbums ids2 st).1).1 ∧
  (deleteAlbums ids1 (deleteAlbums ids1 st).1).1 = (deleteAlbums ids1 st).1.
Proof.
  assert (Hgen : ∀ l1 l2 l3,
    (∀ k, k ∈ l3 ↔ k ∈ l1 ∨ k ∈ l2) →
    (deleteAlbums l2 (deleteAlbums l1 st).1).1 = (deleteAlbums l3 st).1).
  { intros l1 l2 l3 Hl3.
    destruct (deleteAlbums_store l1 st) as (Ha1 & Hs1 & Hm1).
    destruct (deleteAlbums_store l2 (deleteAlbums l1 st).1) as (Ha2 & Hs2 & Hm2).
    destruct (deleteAlbums_store l3 st) as (Ha3 & Hs3 & Hm3).
    apply store_eq.
    - rewrite Ha2, Ha1, Ha3, list_filter_filter. apply list_filter_iff.
      intros a. rewrite Hl3. tauto.
    - apply map_eq. intros k. rewrite Hs2, Hs1, Hs3.
      destruct (decide (k ∈ l2)), (decide (k ∈ l1)), (decide (k ∈ l3)) as [H3|H3];
        try done; rewrite Hl3 in H3; tauto.
    - apply map_eq. intros k. rewrite Hm2, Hm1, Hm3.
      destruct (decide (k ∈ l2)), (decide (k ∈ l1)), (decide (k ∈ l3)) as [H3|H3];
        try done; rewrite Hl3 in H3; tauto. }
  split_and!.
  - apply Hgen. intros k. apply elem_of_app.
  - rewrite (Hgen ids1 ids2 (ids1 ++ ids2)) by (intros k; apply elem_of_app).
    symmetry. apply Hgen. intros k. rewrite elem_of_app. tauto.
  - apply Hgen. tauto.
Qed.

Lemma not_shadowed_settable st id :
  ¬ shadowedId st id → id ≠ "__proto__" ∨ is_Some (review_status st !! id).
Proof.
  intros Hsh. destruct (decide (id = "__proto__")) as [->|?]; [right|by left].
  destruct (review_status st !! "__proto__") eqn:E; [eauto|].
  destruct Hsh. split; [done|]. by apply (bool_decide_unpack _).
Qed.


(** X11. The batch reject of the overview page, when the page's copy of the
    status map is the stored one.  A selected identifier that has an album is
    reviewed afterwards, unless it is an inherited name without status row:
    the page's filter then reads the inherited value, leaves the identifier
    out of [idsToReview], and the album still has no status row. *)
Theorem confirm_batch_review_reviews selectedIds st id :
  id ∈ selectedIds →
  id ∈ albumIdsOf st →
  let st' := batchUpdateReviewStatus (idsToReview selectedIds (review_status st)) st in
  (¬ shadowedId st id → reviewedId st' id) ∧
  (shadowedId st id →
   (id ∉ idsToReview selectedIds (review_status st)) ∧
   review_status st' !! id = None).
Proof.
  intros Hsel Hin st'. subst st'.
  unfold reviewedId, batchUpdateReviewStatus, getAllReviewStatus.
  cbn [saveReviewStatus review_status]. split.
  - intros Hsh. destruct (isReviewed (review_status st !! id)) eqn:Hrev.
    + rewrite reject_fold_reviewed; cbn [JsObject.parsed JsObject.own]; by rewrite Hrev.
    + destruct (findAlbum_is_Some id (albums st) Hin) as [b Hb].
      rewrite (reject_fold_rejects st _ _ id b); [exact I| | | |done].
      * apply list_elem_of_filter. split; [|done].
        rewrite isUnreviewed_prop, Hrev, bool_decide_eq_false_2 by done. exact I.
      * cbn [JsObject.parsed JsObject.own]. rewrite Hrev. intros [].
      * by apply not_shadowed_settable.
  - intros Hsh.
    assert (Hout : id ∉ idsToReview selectedIds (review_status st)).
    { intros [Hun _]%list_elem_of_filter.
      by rewrite (isUnreviewed_shadowed st id Hsh) in Hun. }
    split; [done|]. rewrite reject_fold_not_listed by done. apply Hsh.
Qed.

(** Selecting A, B and the unknown Z on [catalogABCReviewedB]; selecting
    the album toString on [shadowCatalog]. *)
Lemma confirm_batch_review_reviews_witness :
  reviewedId
    (batchUpdateReviewStatus
       (idsToReview ["A"; "B"; "Z"] (review_status catalogABCReviewedB))
       catalogABCReviewedB) "A" ∧
  idsToReview ["toString"] (review_status shadowCatalog) = [] ∧
  review_status
    (batchUpdateReviewStatus
       (idsToReview ["toString"] (review_status shadowCatalog)) shadowCatalog)
    !! "toString" = None.
Proof.
  destruct (confirm_batch_review_reviews ["A"; "B"; "Z"] catalogABCReviewedB "A")
    as [HA _]; [left|left|].
  destruct (confirm_batch_review_reviews ["toString"] shadowCatalog "toString")
    as [_ HT]; [left|right; left|].
  split_and!.
  - apply HA. by apply (bool_decide_unpack _).
  - reflexivity.
  - apply HT. by apply (bool_decide_unpack _).
Defined.
End RepositoryMore.

(** ** The operation log *)

Section OperationLogs.
Import Storage.

(** X12. The log never holds more than a thousand entries, the entry just added
    is the first one, and the entries it had follow in their order, as far as
    there is room. *)
Theorem log_is_bounded nowMs nowLocal operation result logs :
  let logs' := addOperationLog nowMs nowLocal operation result logs in
  length logs' = Nat.min (S (length logs)) 1000 ∧
  head logs' = Some (mkLog nowMs "系统用户" nowLocal operation result) ∧
  (∀ i, (i < 999)%nat → logs' !! S i = logs !! i) ∧
  (∀ i, (999 ≤ i)%nat → logs' !! S i = None).
Proof.
  intros logs'. subst logs'. unfold addOperationLog.
  set (newLog := {| log_id := nowMs |}).
  assert (Htake : (if decide (1000 < length (newLog :: logs))%nat
                   then take 1000 (newLog :: logs) else newLog :: logs)
                  = newLog :: take 999 logs).
  { case_decide as Hlen; [done|]. simpl in Hlen.
    rewrite take_ge; [done|lia]. }
  rewrite Htake. simpl. rewrite length_take. split_and!.
  - lia.
  - done.
  - intros i Hi. by apply lookup_take_lt.
  - intros i Hi. by apply lookup_take_ge.
Qed.
End OperationLogs.

(** ** CSV lines *)

Section CsvLines.
Import Storage Csv.

Lemma append_cons x (a b : string) : String x a +:+ b = String x (a +:+ b).
Proof. reflexivity. Qed.

Lemma append_nil_l (b : string) : EmptyString +:+ b = b.
Proof. reflexivity. Qed.

Lemma append_assoc (a b c : string) : (a +:+ b) +:+ c = a +:+ (b +:+ c).
Proof.
  induction a as [|x a IH]; [done|]. by rewrite !append_cons, IH.
Qed.

Lemma append_empty (a : string) : a +:+ EmptyString = a.
Proof. induction a as [|x a IH]; [done|]. by rewrite append_cons, IH. Qed.

Lemma includes_false c x f :
  includes c (String x f) = false → x ≠ c ∧ includes c f = false.
Proof. simpl. by case_decide. Qed.

(** A field without comma and without quote is read as it is. *)
Lemma parse_plain f rest current values :
  includes comma f = false → includes dquote f = false →
  parseLoop (f +:+ rest) current false values
  = parseLoop rest (current +:+ f) false values.
Proof.
  revert current. induction f as [|x f IH]; intros current Hc Hq.
  - by rewrite append_nil_l, append_empty.
  - apply includes_false in Hc as [Hxc Hc]. apply includes_false in Hq as [Hxq Hq].
    rewrite append_cons. cbn [parseLoop].
    rewrite decide_False by done. rewrite bool_decide_eq_false_2 by done.
    cbn [andb]. rewrite IH by done. by rewrite append_assoc.
Qed.

(** Inside quotes, the doubled text of a field and the closing quote give the
    field back, when the line ends or a comma follows. *)
Lemma parse_quoted f rest current values :
  rest = EmptyString ∨ (∃ r, rest = String comma r) →
  parseLoop (doubleQuotes f +:+ String dquote rest) current true values
  = parseLoop rest (current +:+ f) false values.
Proof.
  intros Hrest. revert current. induction f as [|x f IH]; intros current.
  - cbn [doubleQuotes]. rewrite append_nil_l, append_empty.
    destruct Hrest as [->|[r ->]]; cbn [parseLoop].
    + by rewrite decide_True.
    + rewrite decide_True by done. by rewrite decide_False.
  - cbn [doubleQuotes]. destruct (decide (x = dquote)) as [->|Hx].
    + rewrite !append_cons. cbn [parseLoop].
      rewrite !decide_True by done. rewrite IH. by rewrite append_assoc.
    + rewrite append_cons. cbn [parseLoop].
      rewrite decide_False by done. rewrite andb_false_r.
      rewrite IH. by rewrite append_assoc.
Qed.

Lemma parse_escaped f rest current values :
  rest = EmptyString ∨ (∃ r, rest = String comma r) →
  parseLoop (String dquote (doubleQuotes f +:+ String dquote EmptyString) +:+ rest)
            current false values
  = parseLoop rest (current +:+ f) false values.
Proof.
  intros Hrest. rewrite append_cons, append_assoc, append_cons, append_nil_l.
  cbn [parseLoop]. rewrite decide_True by done. cbn [negb].
  by apply parse_quoted.
Qed.

Lemma parse_field f rest current values :
  rest = EmptyString ∨ (∃ r, rest = String comma r) →
  parseLoop (escapeCSVField f +:+ rest) current false values
  = parseLoop rest (current +:+ f) false values.
Proof.
  intros Hrest. unfold escapeCSVField.
  destruct (includes comma f) eqn:Hc; cbn [orb]; [by apply parse_escaped|].
  destruct (includes dquote f) eqn:Hq; cbn [orb]; [by apply parse_escaped|].
  destruct (includes newline f); [by apply parse_escaped|by apply parse_plain].
Qed.

Lemma parse_line fields values :
  fields ≠ [] → parseLoop (csvLine fields) EmptyString false values = values ++ fields.
Proof.
  unfold csvLine. revert values.
  induction fields as [|f fields IH]; intros values Hne; [done|].
  destruct fields as [|g fields].
  - cbn [fmap list_fmap String.concat]. rewrite <- (append_empty (escapeCSVField f)).
    rewrite parse_field by by left. cbn [parseLoop]. by rewrite append_nil_l.
  - change (String.concat (String comma EmptyString) (escapeCSVField <$> f :: g :: fields))
      with (escapeCSVField f +:+ String comma
              (String.concat (String comma EmptyString) (escapeCSVField <$> g :: fields))).
    rewrite parse_field by (right; eauto).
    cbn [parseLoop]. rewrite decide_False by done.
    rewrite bool_decide_eq_true_2 by done. cbn [andb negb].
    rewrite IH by done. by rewrite append_nil_l, <- app_assoc.
Qed.

(** X13. What [exportCSV] writes for a list of fields, [parseCSVLine] reads back
    as those fields, whatever commas, quotes and line breaks they contain; the
    line of no field at all reads as one empty field. *)
Theorem csv_line_round_trip :
  (∀ fields, fields ≠ [] → parseCSVLine (csvLine fields) = fields) ∧
  parseCSVLine (csvLine []) = [EmptyString].
Proof.
  split; [|done]. intros fields Hne. unfold parseCSVLine. by rewrite parse_line.
Qed.

(** A field with a comma and a quote in it, between two plain ones. *)
Lemma csv_line_round_trip_witness :
  parseCSVLine (csvLine ["a"; String "," (String dquote "b"); "c"])
  = ["a"; String "," (String dquote "b"); "c"].
Proof. by apply (proj1 csv_line_round_trip). Defined.
End CsvLines.

(** ** Export of the review results *)

Section ExportResults.
Import Storage Spec Repository Csv ReviewExport Examples.

(** X14. The export throws, with the message that there is nothing to export,
    exactly when the list of identifiers to export is empty: an empty list
    given by the caller does not fall back on all the albums. *)
Theorem export_nothing timestamp filteredAlbumIds st :
  (exportReviewResults timestamp filteredAlbumIds st = inl (Error "没有数据可导出")
   ↔ albumIdsToExport filteredAlbumIds st = []) ∧
  exportReviewResults timestamp (Some []) st = inl (Error "没有数据可导出") ∧
  (exportReviewResults timestamp None st = inl (Error "没有数据可导出")
   ↔ albums st = []).
Proof.
  assert (Hiff : ∀ ids,
    exportReviewResults timestamp ids st = inl (Error "没有数据可导出")
    ↔ albumIdsToExport ids st = []).
  { intros ids. unfold exportReviewResults, reviewResults, exportCSV.
    destruct (albumIdsToExport ids st) as [|x l]; simpl; [done|]. split; discriminate. }
  split_and!; [apply Hiff|by apply Hiff|].
  rewrite Hiff. unfold albumIdsToExport, getAllAlbums. by destruct (albums st).
Qed.

(** X15. The row exported for an identifier.  It is labelled reviewed exactly
    when an album carries the identifier and either its status row says
    reviewed or it has no status row and the identifier is an inherited name,
    which the function reads as a status that is not ['未抽卡'].  A row that
    is not labelled reviewed has the link that says not reviewed, and so has
    the row of such an inherited name; a row whose status is reviewed shows
    the link stored with the status, or, when that link is missing or empty,
    the link that says not reviewed. *)
Theorem export_row st id :
  let r := reviewResult st id in
  result_albumId r = id ∧
  (result_reviewStatus r = Reviewed ↔
   id ∈ albumIdsOf st ∧ (reviewedId st id ∨ shadowedId st id)) ∧
  (result_reviewStatus r = Unreviewed → imageLink r = "未抽卡") ∧
  (∀ s, keptId st id → review_status st !! id = Some s →
        imageLink r = match selectedImageLink s with
                      | Some l => if decide (l = EmptyString) then "未抽卡" else l
                      | None => "未抽卡"
                      end) ∧
  (shadowedId st id → imageLink r = "未抽卡") ∧
  (∀ a, findAlbum id (albums st) = Some a →
        result_albumName r = albumName a ∧ result_bookName r = bookName a ∧
        result_category r = category a) ∧
  (id ∉ albumIdsOf st →
        r = mkResult id EmptyString EmptyString EmptyString "未抽卡" Unreviewed).
Proof.
  intros r. subst r. unfold reviewResult, keptId, reviewedId, getAllAlbums, getAllReviewStatus.
  destruct (findAlbum id (albums st)) as [a|] eqn:Ha.
  - apply findAlbum_Some in Ha as [Hid Hin].
    assert (Hmem : id ∈ albumIdsOf st) by (rewrite <- Hid; by apply list_elem_of_fmap_2).
    destruct (decide (shadowedId st id)) as [Hsh|Hsh].
    + rewrite (isUnreviewed_shadowed st id Hsh).
      destruct Hsh as [Hnone Hinh]. unfold JsObject.prop. rewrite Hnone.
      rewrite bool_decide_eq_true_2 by done. simpl.
      split_and!; try done.
      * split; [|done]. intros _. split; [done|]. by right.
      * by intros a' [= <-].
    + rewrite isUnreviewed_prop, (bool_decide_eq_false_2 _ Hsh), andb_true_r.
      destruct (isReviewed (review_status st !! id)) eqn:Hrev; simpl.
      * split_and!; try done.
        -- split; [|done]. intros _. split; [done|]. by left.
        -- intros s _ Hs. unfold JsObject.prop. by rewrite Hs.
        -- by intros a' [= <-].
      * split_and!; try done.
        -- split; [done|]. by intros [_ [[]|?]].
        -- by intros s [_ []].
        -- by intros a' [= <-].
  - apply findAlbum_None in Ha. simpl. split_and!; try done.
    + split; [done|]. by intros [? _].
    + by intros s [? _].
Qed.

(** B of [catalogABCReviewedB] is exported with its first image; the album
    toString of [shadowCatalog], which has no status row, is exported as
    reviewed. *)
Lemma export_row_witness :
  imageLink (reviewResult catalogABCReviewedB "B") = "b1.png" ∧
  imageLink (reviewResult catalogABCReviewedB "A") = "未抽卡" ∧
  reviewResult catalogABCReviewedB "Z"
  = mkResult "Z" EmptyString EmptyString EmptyString "未抽卡" Unreviewed ∧
  result_reviewStatus (reviewResult shadowCatalog "toString") = Reviewed ∧
  imageLink (reviewResult shadowCatalog "toString") = "未抽卡".
Proof.
  destruct (export_row catalogABCReviewedB "B") as (_ & _ & _ & HB & _).
  destruct (export_row catalogABCReviewedB "A") as (_ & _ & HA & _).
  destruct (export_row catalogABCReviewedB "Z") as (_ & _ & _ & _ & _ & _ & HZ).
  destruct (export_row shadowCatalog "toString") as (_ & HT & _ & _ & HL & _).
  assert (Hsh : shadowedId shadowCatalog "toString") by by apply (bool_decide_unpack _).
  split_and!.
  - rewrite (HB (accepted albumB)); [reflexivity| |reflexivity].
    split; [right; left|exact I].
  - by apply HA.
  - apply HZ. by apply (bool_decide_unpack _).
  - apply HT. split; [right; left|by right].
  - by apply HL.
Defined.

Lemma field_csvRecord r r0 :
  field (csvRecord r) <$> (csvRecord r0).*1 = (csvRecord r).*2.
Proof. destruct r, r0. reflexivity. Qed.

Lemma header_csvRecord r :
  csvLine (csvRecord r).*1 = "专辑id,专辑名称,书名,赛道品类,图片链接,抽卡状态".
Proof. destruct r. vm_compute. reflexivity. Qed.

(** X16. The file of an export that does not throw: its name carries the
    timestamp; its content is the byte order mark, the line of the six
    column names and one line per identifier, in the order asked for; and
    every data line is read back by [parseCSVLine] as the six fields of its
    row. *)
Theorem export_file timestamp filteredAlbumIds st :
  albumIdsToExport filteredAlbumIds st ≠ [] →
  exportReviewResults timestamp filteredAlbumIds st
  = inr {| filename := "专辑图片抽卡结果_" +:+ timestamp +:+ ".csv";
           content :=
             bom +:+ String.concat (String newline EmptyString)
               ("专辑id,专辑名称,书名,赛道品类,图片链接,抽卡状态"
                :: ((λ id, csvLine (csvRecord (reviewResult st id)).*2)
                      <$> albumIdsToExport filteredAlbumIds st)) |} ∧
  (∀ id, parseCSVLine (csvLine (csvRecord (reviewResult st id)).*2)
         = (csvRecord (reviewResult st id)).*2).
Proof.
  intros Hne. split.
  - unfold exportReviewResults, reviewResults, exportCSV.
    destruct (albumIdsToExport filteredAlbumIds st) as [|x l]; [done|].
    cbn [fmap list_fmap]. do 4 f_equal.
    rewrite header_csvRecord, field_csvRecord. do 2 f_equal.
    rewrite <- !list_fmap_compose. apply list_fmap_ext. intros _ id _.
    unfold compose. cbn beta. by rewrite field_csvRecord.
  - intros id. unfold parseCSVLine. by rewrite parse_line.
Qed.

(** The file of the export of B and A from [catalogABCReviewedB] has a
    header line and two lines. *)
Lemma export_file_witness :
  ∃ content,
    exportReviewResults "20240202101500" (Some ["B"; "A"]) catalogABCReviewedB
    = inr {| filename := "专辑图片抽卡结果_20240202101500.csv"; content := bom +:+ content |} ∧
    content = String.concat (String newline EmptyString)
      ["专辑id,专辑名称,书名,赛道品类,图片链接,抽卡状态";
       "B,Album B,Book,fantasy,b1.png,已抽卡";
       "A,Album A,Book,fantasy,未抽卡,未抽卡"].
Proof.
  eexists. split.
  - apply (export_file "20240202101500" (Some ["B"; "A"]) catalogABCReviewedB). discriminate.
  - reflexivity.
Defined.

(** X17. After a batch reject, a listed album that was not reviewed is
    exported as reviewed, with the link that says rejected; the album whose
    identifier is [__proto__], for which the batch reject stores no row, is
    exported as reviewed with the link that says not reviewed. *)
Theorem export_after_batch_reject ids st id a :
  id ∈ ids → ¬ reviewedId st id → findAlbum id (albums st) = Some a →
  (id ≠ "__proto__" →
   reviewResult (batchUpdateReviewStatus ids st) id
   = mkResult id (albumName a) (bookName a) (category a) "抽卡不通过" Reviewed) ∧
  (id = "__proto__" → review_status st !! id = None →
   reviewResult (batchUpdateReviewStatus ids st) id
   = mkResult id (albumName a) (bookName a) (category a) "未抽卡" Reviewed).
Proof.
  intros Hin Hrev Ha.
  unfold reviewResult, batchUpdateReviewStatus, getAllAlbums, getAllReviewStatus.
  cbn [saveReviewStatus albums review_status]. rewrite Ha.
  pose proof (findAlbum_Some _ _ _ Ha) as [Hid _]. split.
  - intros Hne. unfold JsObject.prop.
    rewrite (reject_fold_rejects st ids _ id a); [|done|done|by left|done].
    rewrite Hid. reflexivity.
  - intros -> Hnone. unfold JsObject.prop.
    rewrite reject_fold_proto by done. rewrite Hid. reflexivity.
Qed.

(** Rejecting A and B on [catalogABCReviewedB] and exporting A; rejecting
    the album of [protoCatalog] and exporting it. *)
Lemma export_after_batch_reject_witness :
  reviewResult (batchUpdateReviewStatus ["A"; "B"] catalogABCReviewedB) "A"
  = mkResult "A" "Album A" "Book" "fantasy" "抽卡不通过" Reviewed ∧
  reviewResult (batchUpdateReviewStatus ["__proto__"] protoCatalog) "__proto__"
  = mkResult "__proto__" "Album P" "Book" "fantasy" "未抽卡" Reviewed.
Proof.
  split.
  - apply (export_after_batch_reject ["A"; "B"] catalogABCReviewedB "A" albumA);
      [left|intros []|reflexivity|discriminate].
  - apply (export_after_batch_reject ["__proto__"] protoCatalog "__proto__" albumProto);
      [left|intros []|reflexivity|reflexivity|reflexivity].
Defined.
End ExportResults.

(** ** Navigation, continued *)

Section Adjacent.
Import Storage Spec Repository ReviewPage OverviewPage Examples.

Lemma findIndex_found {A : Type} (P : A → Prop) `{!∀ x, Decision (P x)} (l : list A) :
  findIndex P l ≠ -1 →
  ∃ i x, findIndex P l = Z.of_nat i ∧ l !! i = Some x ∧ P x.
Proof.
  unfold findIndex. destruct (list_find P l) as [[i x]|] eqn:E; [|done].
  intros _. apply list_find_Some in E as (Hi & Hx & _). eauto.
Qed.

Lemma findIndex_missing {A : Type} (P : A → Prop) `{!∀ x, Decision (P x)} (l : list A) :
  findIndex P l = -1 → ∀ x, x ∈ l → ¬ P x.
Proof.
  unfold findIndex. destruct (list_find P l) as [[i x]|] eqn:E; [lia|].
  intros _. apply list_find_None in E. by apply Forall_forall.
Qed.

Lemma findIndex_at (l : list Album) i a :
  NoDup (albumId <$> l) → l !! i = Some a →
  findIndex (λ b, albumId b = albumId a) l = Z.of_nat i.
Proof.
  intros Hnd Hi. unfold findIndex.
  rewrite (proj2 (list_find_Some _ l i a)); [done|].
  split_and!; [done|done|]. intros j b Hj Hlt Heq.
  assert (j = i); [|lia].
  apply (NoDup_lookup (albumId <$> l) j i (albumId a)); [done| |].
  - by rewrite list_lookup_fmap, Hj, <- Heq.
  - by rewrite list_lookup_fmap, Hi.
Qed.

(** X18. In a catalog of distinct identifiers the two neighbours are inverse to
    each other: [b] is the album after [a] exactly when [a] is the album
    before [b].  An identifier that no album carries has no neighbour. *)
Theorem adjacent_inverse st a b :
  (NoDup (albumIdsOf st) →
   getNextAlbumId a st = Some b ↔ getPreviousAlbumId b st = Some a) ∧
  (a ∉ albumIdsOf st →
   getNextAlbumId a st = None ∧ getPreviousAlbumId a st = None).
Proof.
  unfold getNextAlbumId, getPreviousAlbumId, albumIdsOf, getAllAlbums. split.
  - intros Hnd. split.
    + case_decide as Hidx; [done|]. intros Hb.
      destruct (findIndex_found (λ x, albumId x = a) (albums st)) as (i & x & Hi & Hx & Hxa);
        [lia|].
      rewrite Hi in Hb, Hidx.
      replace (Z.to_nat (Z.of_nat i + 1)) with (S i) in Hb by lia.
      destruct (albums st !! S i) as [y|] eqn:Hy; [|done].
      injection Hb as <-.
      rewrite (findIndex_at (albums st) (S i) y) by done.
      rewrite decide_False by lia.
      replace (Z.to_nat (Z.of_nat (S i) - 1)) with i by lia.
      by rewrite Hx, <- Hxa.
    + case_decide as Hidx; [done|]. intros Ha.
      destruct (findIndex_found (λ x, albumId x = b) (albums st)) as (j & y & Hj & Hy & Hyb);
        [lia|].
      rewrite Hj in Ha, Hidx.
      destruct j as [|i]; [lia|].
      replace (Z.to_nat (Z.of_nat (S i) - 1)) with i in Ha by lia.
      destruct (albums st !! i) as [x|] eqn:Hx; [|done].
      injection Ha as <-.
      rewrite (findIndex_at (albums st) i x) by done.
      pose proof (lookup_lt_Some _ _ _ Hy) as Hlen.
      rewrite decide_False by lia.
      replace (Z.to_nat (Z.of_nat i + 1)) with (S i) by lia.
      by rewrite Hy, <- Hyb.
  - intros Hout.
    rewrite (findIndex_none (λ x, albumId x = a) (albums st))
      by by apply no_album_with_id.
    split; [by rewrite decide_True by by left|by rewrite decide_True].
Qed.

(** In [catalogABC], B follows A and A precedes B; Z has no neighbour. *)
Lemma adjacent_inverse_witness :
  getPreviousAlbumId "B" catalogABC = Some "A" ∧
  getNextAlbumId "Z" catalogABC = None.
Proof.
  split.
  - apply (adjacent_inverse catalogABC "A" "B"); [by apply (bool_decide_unpack _)|reflexivity].
  - apply (adjacent_inverse catalogABC "Z" "Z"). by apply (bool_decide_unpack _).
Defined.



(** X20. [getNextUnreviewedAlbumId] only ever names an unreviewed album, and in a
    catalog of distinct identifiers never the current one. *)
Theorem next_unreviewed_is_unreviewed current st next :
  getNextUnreviewedAlbumId current st = Some next →
  next ∈ albumId <$> unreviewed st ∧
  (NoDup (albumIdsOf st) → next ≠ current).
Proof.
  unfold getNextUnreviewedAlbumId.
  set (u := unreviewed st). case_decide as Hlen; [done|].
  case_decide as Hidx.
  - intros Hnext. destruct (u !! 0%nat) as [x|] eqn:Hx; [|done].
    injection Hnext as <-. apply list_elem_of_lookup_2 in Hx.
    split; [by apply list_elem_of_fmap_2|]. intros _.
    by apply (findIndex_missing _ _ Hidx x).
  - case_decide as Hlast; [done|]. intros Hnext.
    destruct (findIndex_found (λ a, albumId a = current) u Hidx) as (i & x & Hi & Hx & Hxc).
    rewrite Hi in Hnext.
    replace (Z.to_nat (Z.of_nat i + 1)) with (S i) in Hnext by lia.
    destruct (u !! S i) as [y|] eqn:Hy; [|done]. injection Hnext as <-.
    split; [apply list_elem_of_fmap_2; by apply list_elem_of_lookup_2 in Hy|].
    intros Hnd Heq.
    assert (Hndu : NoDup (albumId <$> u)) by by apply NoDup_fmap_filter.
    assert (S i = i); [|lia].
    apply (NoDup_lookup (albumId <$> u) (S i) i current); [done| |].
    + by rewrite list_lookup_fmap, Hy, <- Heq.
    + by rewrite list_lookup_fmap, Hx, <- Hxc.
Qed.

(** From A in [catalogABCReviewedB] the next unreviewed album is C. *)
Lemma next_unreviewed_is_unreviewed_witness :
  "C" ∈ albumId <$> unreviewed catalogABCReviewedB ∧ "C" ≠ "A".
Proof.
  destruct (next_unreviewed_is_unreviewed "A" catalogABCReviewedB "C") as [Hin Hne];
    [reflexivity|].
  split; [exact Hin|]. apply Hne. by apply (bool_decide_unpack _).
Defined.
End Adjacent.

(** ** The overview page *)

Section Overview.
Import Storage Spec Repository ReviewPage OverviewPage Examples.

Lemma countOne_fold (S : gmap string AlbumReviewStatus) (l : list Album) r u :
  foldl (countOne S) (r, u) l
  = (r + Z.of_nat (length (filter (λ a, isReviewed (S !! albumId a)) l)),
     u + Z.of_nat (length (filter (λ a, absentOrUnreviewed (S !! albumId a)) l))).
Proof.
  revert r u. induction l as [|a l IH]; intros r u; simpl.
  - f_equal; lia.
  - rewrite !filter_cons.
    destruct (S !! albumId a) as [s|] eqn:Hs; simpl.
    + rewrite reviewed_not_unreviewed.
      destruct (bool_decide (reviewStatus s = Reviewed)); simpl; rewrite IH; f_equal; lia.
    + rewrite IH. f_equal; lia.
Qed.

(** X21. The counters of the overview page add up to the number of albums.
    Its count of reviewed albums is the number of albums whose status row
    says reviewed, its count of unreviewed albums the length of the unreviewed
    subsequence of the specification; the queue of the review page is
    shorter by the albums without status row whose identifier is an inherited
    name, which the overview counts as unreviewed and the review page leaves
    out. *)
Theorem stats_add_up st :
  let s := stats (albums st) (review_status st) in
  stat_total s = totalAlbumCount st ∧
  stat_reviewed s + stat_unreviewed s = stat_total s ∧
  stat_unreviewed s = Z.of_nat (length (unreviewedSeq st)) ∧
  stat_unreviewed s = unreviewedCount st + Z.of_nat (length (shadowedAlbums st)) ∧
  stat_reviewed s = Z.of_nat (length (reviewedAlbums st)).
Proof.
  unfold stats. rewrite countOne_fold. simpl.
  unfold totalAlbumCount, unreviewedCount, unreviewed, reviewedAlbums, reviewedId,
    unreviewedSeq, unreviewedId, shadowedAlbums, getAllAlbums, getAllReviewStatus.
  split_and!; try done.
  - induction (albums st) as [|a l IH]; [done|].
    rewrite !filter_cons.
    destruct (review_status st !! albumId a) as [s|] eqn:Hs; simpl in *.
    + rewrite reviewed_not_unreviewed.
      destruct (bool_decide (reviewStatus s = Reviewed)); simpl in *; lia.
    + lia.
  - induction (albums st) as [|a l IH]; [done|].
    rewrite !filter_cons.
    destruct (decide (shadowedId st (albumId a))) as [Hsh|Hsh].
    + rewrite (isUnreviewed_shadowed st _ Hsh). destruct Hsh as [Hnone _].
      rewrite Hnone. simpl in *. lia.
    + rewrite (isUnreviewed_unshadowed st _ Hsh).
      destruct (absentOrUnreviewed (review_status st !! albumId a)); simpl in *; lia.
Qed.

(** On [shadowCatalog] the overview counts three unreviewed albums and the
    review page two. *)
Lemma stats_add_up_witness :
  stat_unreviewed (stats (albums shadowCatalog) (review_status shadowCatalog)) = 3 ∧
  unreviewedCount shadowCatalog = 2 ∧
  shadowedAlbums shadowCatalog = [albumToString] ∧
  stat_reviewed (stats (albums catalogABCReviewedB) (review_status catalogABCReviewedB)) = 1.
Proof.
  destruct (stats_add_up shadowCatalog) as (_ & _ & Hseq & Hq & _).
  destruct (stats_add_up catalogABCReviewedB) as (_ & _ & _ & _ & Hr).
  split_and!.
  - rewrite Hseq. reflexivity.
  - reflexivity.
  - reflexivity.
  - rewrite Hr. reflexivity.
Defined.

(** X22. Pages: with a positive page size, the album at position [i] of the
    filtered list is on page [i / pageSize + 1] at position [i mod pageSize];
    no page is longer than the page size, and a page that starts at or after
    the end of the list is empty. *)
Theorem pages_cover {A : Type} (l : list A) (pageSize : Z) :
  0 < pageSize →
  (∀ i, (i < length l)%nat →
        paginatedAlbums l (Z.of_nat i / pageSize + 1) pageSize
          !! Z.to_nat (Z.of_nat i mod pageSize) = l !! i) ∧
  (∀ p, 1 ≤ p → Z.of_nat (length (paginatedAlbums l p pageSize)) ≤ pageSize) ∧
  (∀ p, Z.of_nat (length l) ≤ (p - 1) * pageSize → paginatedAlbums l p pageSize = []).
Proof.
  intros Hps. unfold paginatedAlbums, slice. split_and!.
  - intros i Hi.
    pose proof (Z.div_mod (Z.of_nat i) pageSize ltac:(lia)) as Hdm.
    pose proof (Z.mod_pos_bound (Z.of_nat i) pageSize Hps) as Hmod.
    pose proof (Z.div_pos (Z.of_nat i) pageSize ltac:(lia) Hps) as Hdiv.
    set (q := Z.of_nat i / pageSize) in *. set (r := Z.of_nat i mod pageSize) in *.
    replace (q + 1 - 1) with q by lia.
    assert (Hq : 0 ≤ q * pageSize) by nia.
    assert (Hqi : q * pageSize + r = Z.of_nat i) by lia.
    rewrite (proj2 (Z.ltb_ge (q * pageSize) 0)) by lia.
    rewrite (proj2 (Z.ltb_ge (q * pageSize + pageSize) 0)) by lia.
    rewrite lookup_take_lt by lia.
    rewrite lookup_drop. f_equal. lia.
  - intros p Hp. rewrite length_take.
    assert (0 ≤ (p - 1) * pageSize) by nia.
    rewrite (proj2 (Z.ltb_ge ((p - 1) * pageSize) 0)) by lia.
    rewrite (proj2 (Z.ltb_ge ((p - 1) * pageSize + pageSize) 0)) by lia. lia.
  - intros p Hp.
    assert (0 ≤ (p - 1) * pageSize) by lia.
    rewrite (proj2 (Z.ltb_ge ((p - 1) * pageSize) 0)) by lia.
    rewrite (proj2 (Z.ltb_ge ((p - 1) * pageSize + pageSize) 0)) by lia.
    replace (Z.to_nat (_ - _)) with 0%nat by lia. done.
Qed.

(** The pages of size two of a list of five. *)
Lemma pages_cover_witness :
  paginatedAlbums ["a"; "b"; "c"; "d"; "e"] 3 2 = ["e"] ∧
  paginatedAlbums ["a"; "b"; "c"; "d"; "e"] 4 2 = [].
Proof.
  destruct (pages_cover ["a"; "b"; "c"; "d"; "e"] 2) as (_ & _ & Hend); [lia|].
  split; [reflexivity|]. apply Hend. simpl. lia.
Defined.
End Overview.

(** ** The decisions of the review page *)

Section Decisions.
Import Storage Spec Repository ReviewPage Csv ReviewExport Examples.

(** X23. Accepting image [i] of an album, [i] from 1 to 4, makes its exported row
    a reviewed one whose link is that image, or the link that says not
    reviewed when the slot of that image is empty.  For the album whose
    identifier is [__proto__] no status row is stored, and the exported row
    has the link that says not reviewed whatever the image. *)
Theorem confirm_then_export id a i st :
  findAlbum id (albums st) = Some a →
  1 ≤ i ≤ 4 →
  let st' := (updateAlbumReviewStatus id (confirmPartial a i) st).1 in
  imageLinkAt a i = [image1 a; image2 a; image3 a; image4 a] !! Z.to_nat (i - 1) ∧
  is_Some (imageLinkAt a i) ∧
  (id ≠ "__proto__" →
   reviewResult st' id
   = mkResult id (albumName a) (bookName a) (category a)
              (linkOr (imageLinkAt a i)) Reviewed) ∧
  (id = "__proto__" → review_status st !! id = None →
   st' = st ∧
   reviewResult st' id
   = mkResult id (albumName a) (bookName a) (category a) "未抽卡" Reviewed).
Proof.
  intros Ha Hi st'. subst st'.
  assert (Hlink : ∃ l, imageLinkAt a i = Some l).
  { unfold imageLinkAt. rewrite decide_False by lia.
    assert (i = 1 ∨ i = 2 ∨ i = 3 ∨ i = 4) as [-> | [-> | [-> | ->]]] by lia; simpl; eauto. }
  destruct (updateAlbumReviewStatus_store id (confirmPartial a i) st a Ha)
    as (row & -> & _ & _ & _ & _ & _ & Hstat & _ & Hsel).
  pose proof (findAlbum_Some _ _ _ Ha) as [Hid _].
  split_and!.
  - unfold imageLinkAt. by rewrite decide_False by lia.
  - destruct Hlink as [l ->]. eauto.
  - intros Hne. destruct Hlink as [l Hl].
    unfold reviewResult, getAllAlbums, getAllReviewStatus.
    cbn [fst saveReviewStatus albums review_status]. rewrite Ha.
    rewrite (prop_row _ id row) by (rewrite set_insert by (by left); apply lookup_insert_eq).
    cbn [isUnreviewed linkOf]. rewrite Hstat, Hsel. unfold confirmPartial.
    cbn [p_reviewStatus p_selectedImageLink]. rewrite Hl, Hid. reflexivity.
  - intros -> Hnone. cbn [fst]. rewrite set_proto by done.
    split; [by destruct st|].
    unfold reviewResult, saveReviewStatus, getAllAlbums, getAllReviewStatus, JsObject.prop.
    cbn [albums review_status]. rewrite Ha, Hnone, Hid. reflexivity.
Qed.

(** Accepting the first image of A, and the third one, which A has not;
    accepting the first image of the album of [protoCatalog]. *)
Lemma confirm_then_export_witness :
  imageLink (reviewResult
               (updateAlbumReviewStatus "A" (confirmPartial albumA 1) catalogABC).1 "A")
  = "a1.png" ∧
  imageLink (reviewResult
               (updateAlbumReviewStatus "A" (confirmPartial albumA 3) catalogABC).1 "A")
  = "未抽卡" ∧
  imageLink (reviewResult
               (updateAlbumReviewStatus "__proto__" (confirmPartial albumProto 1)
                  protoCatalog).1 "__proto__")
  = "未抽卡".
Proof.
  destruct (confirm_then_export "A" albumA 1 catalogABC) as (_ & _ & H1 & _);
    [reflexivity|lia|].
  destruct (confirm_then_export "A" albumA 3 catalogABC) as (_ & _ & H3 & _);
    [reflexivity|lia|].
  destruct (confirm_then_export "__proto__" albumProto 1 protoCatalog) as (_ & _ & _ & HP);
    [reflexivity|lia|].
  split_and!.
  - by rewrite H1.
  - by rewrite H3.
  - destruct HP as [_ ->]; reflexivity.
Defined.

(** X24. The rejection of the review page and the batch reject of the overview
    page leave the same store for an album that is not reviewed and has no
    selected index. *)
Theorem single_reject_is_batch_reject id a st :
  findAlbum id (albums st) = Some a →
  (∀ s, review_status st !! id = Some s →
        reviewStatus s = Unreviewed ∧ selectedImageIndex s = None) →
  updateAlbumReviewStatus id rejectPartial st
  = (batchUpdateReviewStatus [id] st, Returned).
Proof.
  intros Ha Hrow.
  unfold updateAlbumReviewStatus, batchUpdateReviewStatus, rejectOne,
    getAllAlbums, getAllReviewStatus.
  cbn [foldl]. rewrite Ha, rowAt_parsed.
  destruct (review_status st !! id) as [s|] eqn:Hs.
  - destruct (Hrow s eq_refl) as [Hu Hi]. simpl. rewrite Hu, Hi. reflexivity.
  - reflexivity.
Qed.

(** Rejecting A of [catalogABC] either way. *)
Lemma single_reject_is_batch_reject_witness :
  updateAlbumReviewStatus "A" rejectPartial catalogABC
  = (batchUpdateReviewStatus ["A"] catalogABC, Returned).
Proof.
  apply (single_reject_is_batch_reject "A" albumA catalogABC); [reflexivity|].
  intros s Hs. discriminate Hs.
Defined.

(** The first entry of a log. *)
Lemma log_is_bounded_witness :
  addOperationLog "1706868900000" "2024/2/2 10:15:00" "批量抽卡" "ok" [] !! 1%nat = None.
Proof.
  destruct (log_is_bounded "1706868900000" "2024/2/2 10:15:00" "批量抽卡" "ok" [])
    as (_ & _ & Hshift & _).
  rewrite Hshift; [reflexivity|lia].
Defined.
End Decisions.
